(** * ICM calculator of the MTT solver (backend/src/services/icmCalculator.ts)

    A shallow embedding of the static methods of [ICMCalculator] and the
    properties of them that the specification states.

    The methods compute on JavaScript numbers.  The embedding is written once,
    over an interface [Number] of the operations the source uses, and is read
    at two instances:

    - [Float64]: IEEE 754 binary64 (Rocq's primitive floats), the numbers the
      program runs on, with infinities, signed zeros and NaN;
    - [Exact]: the rationals [Q], the arithmetic the formulas of the
      specification are written in (no rounding, no NaN).  Statements over
      this instance keep every divisor non-zero and every array read in
      range or guarded by [|| 0], where both instances follow the same
      formulas. *)

From Stdlib Require Import String ZArith QArith Qminmax Qfield Lia Lqa List Bool.
From Stdlib Require Import Floats.FloatClass Floats.PrimFloat Uint63.
From Stdlib Require Import Qabs.
Import ListNotations.

Set Implicit Arguments.

(** ** Numbers *)

Class Number (A : Type) : Type := {
  zero : A;                       (* the literal 0 *)
  one : A;                        (* the literal 1 *)
  half : A;                       (* the literal 0.5 *)
  NaN : A;                        (* [undefined] read as a number *)
  add : A -> A -> A;              (* x + y *)
  sub : A -> A -> A;              (* x - y *)
  mul : A -> A -> A;              (* x * y *)
  div : A -> A -> A;              (* x / y *)
  ofLength : nat -> A;            (* an array length used as a number *)
  gtb : A -> A -> bool;           (* x > y *)
  truthy : A -> bool;             (* ToBoolean(x) *)
  mathMin : A -> A -> A           (* Math.min(x, y) *)
}.

Module Float64.

(** ToBoolean: 0, -0 and NaN are falsy. *)
Definition toBoolean (x : float) : bool :=
  negb (PrimFloat.eqb x 0%float) && negb (PrimFloat.is_nan x).

(** Math.min: NaN if an argument is NaN; -0 is smaller than +0. *)
Definition min (x y : float) : float :=
  if PrimFloat.is_nan x || PrimFloat.is_nan y then PrimFloat.nan
  else if PrimFloat.ltb x y then x
  else if PrimFloat.ltb y x then y
  else match PrimFloat.classify x with
       | NZero => x
       | _ => y
       end.

Definition ofNat (n : nat) : float :=
  PrimFloat.of_uint63 (Uint63.of_Z (Z.of_nat n)).

#[global] Instance number : Number float := {|
  zero := 0%float;
  one := 1%float;
  half := 0.5%float;
  NaN := PrimFloat.nan;
  add := PrimFloat.add;
  sub := PrimFloat.sub;
  mul := PrimFloat.mul;
  div := PrimFloat.div;
  ofLength := ofNat;
  gtb := fun x y => PrimFloat.ltb y x;
  truthy := toBoolean;
  mathMin := min
|}.

End Float64.

Module Exact.

(** The rationals have no NaN: a read outside an array yields 0 here, and
    the statements over this instance do not read outside an array (the
    reads [payouts[k] || 0] yield 0 in both instances). *)
#[global] Instance number : Number Q := {|
  zero := 0%Q;
  one := 1%Q;
  half := (1 # 2)%Q;
  NaN := 0%Q;
  add := Qplus;
  sub := Qminus;
  mul := Qmult;
  div := Qdiv;
  ofLength := fun n => inject_Z (Z.of_nat n);
  gtb := fun x y => negb (Qle_bool x y);
  truthy := fun x => negb (Qeq_bool x 0);
  mathMin := Qmin
|}.

End Exact.

(** ** Arrays *)

Section Arrays.

Context {A : Type} `{Number A}.

(** [a[i]] for a number [i]: [undefined] outside the array. *)
Definition get (a : list A) (i : Z) : A :=
  if (i <? 0)%Z then NaN else nth (Z.to_nat i) a NaN.

(** [v || 0] *)
Definition orZero (v : A) : A := if truthy v then v else zero.

(** [a.reduce((sum, x) => sum + x, 0)] *)
Definition sum (a : list A) : A := fold_left add a zero.

(** [a.filter((_, index) => index !== i)] *)
Fixpoint removeAt (i : nat) (a : list A) {struct a} : list A :=
  match a with
  | [] => []
  | x :: t => match i with
              | O => t
              | S j => x :: removeAt j t
              end
  end.

(** [a.slice(0, k)] *)
Definition slice0 (a : list A) (k : nat) : list A := firstn k a.

End Arrays.

(** ** Results *)

Record ICMResult (A : Type) : Type := {
  equity : A;
  chipEV : A;
  dollarEV : A;
  riskPremium : A
}.

Record PushFold (A : Type) : Type := {
  pushEV : A;
  foldEV : A
}.

(** A call returns a value, throws [new Error(msg)], or its recursion is cut
    by the depth budget of the embedding. *)
Inductive outcome (T : Type) : Type :=
| Returns (v : T)
| Throws (msg : string)
| OutOfFuel.

Arguments Returns {T} v.
Arguments Throws {T} msg.
Arguments OutOfFuel {T}.

Definition invalidInput : string := "Invalid input: empty stacks or payouts"%string.

(** ** ICMCalculator *)

Section ICMCalculator.

Context {A : Type} `{Number A}.

(** The body of the loop of [calculateEliminationProbabilities]: the value
    stored in [probs[i]]. *)
Definition rawProbability (stacks : list A) (i : nat) : A :=
  let otherStacks := removeAt i stacks in
  let harmonicMean :=
    div (ofLength (length otherStacks))
        (fold_left (fun sum stack => add sum (div one stack)) otherStacks zero) in
  div harmonicMean (add harmonicMean (get stacks (Z.of_nat i))).

Definition calculateEliminationProbabilities (stacks : list A) : list A :=
  let probs := map (rawProbability stacks) (seq 0 (length stacks)) in
  let sum := fold_left add probs zero in
  map (fun prob => div prob sum) probs.

(** [playerIndex > i ? playerIndex - 1 : playerIndex] *)
Definition newPlayerIndex (playerIndex : Z) (i : nat) : Z :=
  if (Z.of_nat i <? playerIndex)%Z then (playerIndex - 1)%Z else playerIndex.

(** [fuel] bounds the depth of the recursion; a call that would go deeper
    yields [None]. *)
Fixpoint calculateInMoneyEquity_fuel (fuel : nat)
    (stacks payouts : list A) (playerIndex : Z) : option A :=
  let n := length stacks in
  if (n =? 1)%nat then Some (get payouts 0)
  else if (n =? 2)%nat then
    let totalChips := add (get stacks 0) (get stacks 1) in
    let playerChips := get stacks playerIndex in
    let winProb := div playerChips totalChips in
    Some (add (mul winProb (get payouts 0))
              (mul (sub one winProb) (orZero (get payouts 1))))
  else
    let eliminationProbs := calculateEliminationProbabilities stacks in
    fold_left
      (fun (acc : option A) (i : nat) =>
         match acc with
         | None => None
         | Some equity =>
           if (Z.of_nat i =? playerIndex)%Z then
             let lowestPayout := orZero (get payouts (Z.of_nat n - 1)) in
             Some (add equity (mul (get eliminationProbs (Z.of_nat i)) lowestPayout))
           else
             let newStacks := removeAt i stacks in
             let newPayouts := slice0 payouts (length newStacks) in
             match fuel with
             | O => None
             | S fuel' =>
               match calculateInMoneyEquity_fuel fuel' newStacks newPayouts
                       (newPlayerIndex playerIndex i) with
               | None => None
               | Some subEquity =>
                 Some (add equity (mul (get eliminationProbs (Z.of_nat i)) subEquity))
               end
             end
         end)
      (seq 0 n) (Some zero).

Fixpoint calculatePlayerEquity_fuel (fuel : nat)
    (stacks payouts : list A) (playerIndex : Z) : option A :=
  let n := length stacks in
  if (n =? 1)%nat then Some (orZero (get payouts 0))
  else if (n <=? length payouts)%nat then
    calculateInMoneyEquity_fuel fuel stacks payouts playerIndex
  else
    let eliminationProbs := calculateEliminationProbabilities stacks in
    fold_left
      (fun (acc : option A) (i : nat) =>
         match acc with
         | None => None
         | Some equity =>
           if (Z.of_nat i =? playerIndex)%Z then Some equity
           else
             let newStacks := removeAt i stacks in
             let newPayouts :=
               slice0 payouts (Nat.min (length payouts) (length newStacks)) in
             if (0 <? length newPayouts)%nat then
               match fuel with
               | O => None
               | S fuel' =>
                 match calculatePlayerEquity_fuel fuel' newStacks newPayouts
                         (newPlayerIndex playerIndex i) with
                 | None => None
                 | Some subEquity =>
                   Some (add equity (mul (get eliminationProbs (Z.of_nat i)) subEquity))
                 end
               end
             else Some equity
         end)
      (seq 0 n) (Some zero).

(** The methods, with a depth budget of the number of players. *)
Definition calculateInMoneyEquity (stacks payouts : list A) (playerIndex : Z)
  : option A :=
  calculateInMoneyEquity_fuel (length stacks) stacks payouts playerIndex.

Definition calculatePlayerEquity (stacks payouts : list A) (playerIndex : Z)
  : option A :=
  calculatePlayerEquity_fuel (length stacks) stacks payouts playerIndex.

Definition calculateICM (stacks payouts : list A) (playerIndex : Z)
  : outcome (ICMResult A) :=
  let totalChips := sum stacks in
  let playerStack := get stacks playerIndex in
  if (length payouts =? 0)%nat || (length stacks =? 0)%nat then
    Throws invalidInput
  else
    match calculatePlayerEquity stacks payouts playerIndex with
    | None => OutOfFuel
    | Some equity =>
      let chipEV := mul (div playerStack totalChips) (sum payouts) in
      let dollarEV := equity in
      let riskPremium := sub chipEV dollarEV in
      Returns {| equity := equity; chipEV := chipEV;
                 dollarEV := dollarEV; riskPremium := riskPremium |}
    end.

Definition calculateBubbleFactor (stacks payouts : list A) (playerIndex : Z)
  : option A :=
  let totalChips := sum stacks in
  let playerStack := get stacks playerIndex in
  let chipEquity := mul (div playerStack totalChips) (sum payouts) in
  match calculatePlayerEquity stacks payouts playerIndex with
  | None => None
  | Some icmEquity =>
    Some (if gtb icmEquity zero then div chipEquity icmEquity else one)
  end.

Definition calculatePushFoldEquity
    (heroStack villainStack blinds antes callingRange foldEquity : A)
  : PushFold A :=
  let pot := add blinds antes in
  let foldEV := zero in
  let callEquity := half in
  let effectiveStack := mathMin heroStack villainStack in
  let pushEV :=
    add (mul foldEquity pot)
        (mul (sub one foldEquity)
             (sub (mul callEquity (add pot effectiveStack))
                  (mul (sub one callEquity) effectiveStack))) in
  {| pushEV := pushEV; foldEV := foldEV |}.

End ICMCalculator.

(** ** Exact arithmetic: notions used in the statements *)

Definition Qsum (l : list Q) : Q := fold_right Qplus 0 l.

(** The sum of [f i] for [i] from 0 to [n - 1]. *)
Definition bigsum (n : nat) (f : nat -> Q) : Q := Qsum (map f (seq 0 n)).

(** The value of a call that returned. *)
Definition val (o : option Q) : Q :=
  match o with
  | Some v => v
  | None => 0
  end.

Definition positive (stacks : list Q) : Prop := Forall (fun s => 0 < s) stacks.

(** The sum the source divides the [probs[i]] by. *)
Definition rawTotal (stacks : list Q) : Q :=
  bigsum (length stacks) (rawProbability stacks).


(** The equity of player [k], as a number. *)
Definition inMoneyV (stacks payouts : list Q) (k : nat) : Q :=
  val (calculateInMoneyEquity stacks payouts (Z.of_nat k)).

Definition equityV (stacks payouts : list Q) (k : nat) : Q :=
  val (calculatePlayerEquity stacks payouts (Z.of_nat k)).

(** The payouts of a schedule do not go up with the place. *)
Definition nonincreasing (payouts : list Q) : Prop :=
  forall j, (S j < length payouts)%nat -> nth (S j) payouts 0 <= nth j payouts 0.

Definition nonnegative (payouts : list Q) : Prop := Forall (fun p => 0 <= p) payouts.

(** The stacks with the stack of player [k] replaced by [x]. *)
Fixpoint replaceAt (k : nat) (x : Q) (stacks : list Q) {struct stacks} : list Q :=
  match stacks with
  | [] => []
  | y :: t => match k with
              | O => x :: t
              | S j => y :: replaceAt j x t
              end
  end.

(** [1 / stacks[j]], and the sum of these over all the players. *)
Definition recip (stacks : list Q) (j : nat) : Q := 1 / nth j stacks 0.

Definition recipTotal (stacks : list Q) : Q := bigsum (length stacks) (recip stacks).

(** The number of players less two. *)
Definition fieldSize (stacks : list Q) : Q :=
  inject_Z (Z.of_nat (length stacks)) - 2.

(** The weight of a player whose reciprocal stack is [r], where the
    reciprocals add up to [R] and [c] is the number of players less two. *)
Definition weightOf (c R r : Q) : Q := r / (R + c * r).

(** The weight of player [j] in the elimination probabilities: [probs[j]] is
    [n - 1] times this weight. *)
Definition weight (stacks : list Q) (j : nat) : Q :=
  weightOf (fieldSize stacks) (recipTotal stacks) (recip stacks j).

(** ** The elimination probabilities as the specification writes them *)

Module Spec.

Open Scope Q_scope.

(** The sum of [1 / stacks[j]] over the players [j] other than [i]. *)
Definition reciprocalsOfOthers (stacks : list Q) (i : nat) : Q :=
  bigsum (length stacks)
         (fun j => if (j =? i)%nat then 0 else 1 / nth j stacks 0).

(** [H_i = (n-1) / sum over j <> i of (1/stacks[j])] *)
Definition harmonicMean (stacks : list Q) (i : nat) : Q :=
  (inject_Z (Z.of_nat (length stacks)) - 1) / reciprocalsOfOthers stacks i.

(** [p_i = H_i / (H_i + stacks[i])] *)
Definition rawProbability (stacks : list Q) (i : nat) : Q :=
  harmonicMean stacks i / (harmonicMean stacks i + nth i stacks 0).


End Spec.

(** What [calculateICM] returns for player [k], in exact arithmetic. *)
Definition icmV (stacks payouts : list Q) (k : nat) : ICMResult Q :=
  let chip := (nth k stacks 0 / sum stacks * sum payouts)%Q in
  {| equity := equityV stacks payouts k;
     chipEV := chip;
     dollarEV := equityV stacks payouts k;
     riskPremium := (chip - equityV stacks payouts k)%Q |}.

(** ** The callers of the calculator

    The pushing ranges of [ICMCalculator] and the helpers of the ICM and
    chart routes (backend/src/routes) compare numbers and use decimal
    literals; [Ordered] adds these operations to [Number]. *)

Class Ordered (A : Type) `{Number A} : Type := {
  literal : Z -> Z -> A;          (* the decimal literal n/d, as 0.95 = 95/100 *)
  numLe : A -> A -> bool;         (* x <= y *)
  numLt : A -> A -> bool;         (* x < y *)
  numGe : A -> A -> bool;         (* x >= y *)
  numEq : A -> A -> bool;         (* x === y *)
  mathAbs : A -> A;               (* Math.abs(x) *)
  mathMax : A -> A -> A           (* Math.max(x, y) *)
}.

Arguments Ordered A {_}.

Module Float64Ordered.

Definition ofZ (z : Z) : float :=
  if (z <? 0)%Z then PrimFloat.opp (PrimFloat.of_uint63 (Uint63.of_Z (- z)))
  else PrimFloat.of_uint63 (Uint63.of_Z z).

(** A decimal literal is the binary64 nearest to its value, which the
    division of its digits by its power of ten yields (both are integers
    below 2^53 in the literals of the source). *)
Definition decimal (n d : Z) : float := PrimFloat.div (ofZ n) (ofZ d).

(** Math.max: NaN if an argument is NaN; +0 is larger than -0. *)
Definition max (x y : float) : float :=
  if PrimFloat.is_nan x || PrimFloat.is_nan y then PrimFloat.nan
  else if PrimFloat.ltb x y then y
  else if PrimFloat.ltb y x then x
  else match PrimFloat.classify x with
       | PZero => x
       | _ => y
       end.

#[global] Instance ordered : Ordered float := {|
  literal := decimal;
  numLe := PrimFloat.leb;
  numLt := PrimFloat.ltb;
  numGe := fun x y => PrimFloat.leb y x;
  numEq := PrimFloat.eqb;
  mathAbs := PrimFloat.abs;
  mathMax := max
|}.

End Float64Ordered.

Module ExactOrdered.

#[global] Instance ordered : Ordered Q := {|
  literal := fun n d => (inject_Z n / inject_Z d)%Q;
  numLe := Qle_bool;
  numLt := fun x y => negb (Qle_bool y x);
  numGe := fun x y => Qle_bool y x;
  numEq := Qeq_bool;
  mathAbs := Qabs;
  mathMax := Qmax
|}.

End ExactOrdered.

Section PushingRanges.

Context {A : Type} `{Ordered A}.

Local Open Scope string_scope.
Local Open Scope list_scope.

Definition getTightPushRange : list string :=
  [ "AA"; "KK"; "QQ"; "JJ"; "TT"; "99"; "88"; "77";
    "AKs"; "AKo"; "AQs"; "AQo"; "AJs"; "AJo"; "ATs"; "ATo";
    "A9s"; "A8s"; "A7s"; "A6s"; "A5s"; "A4s"; "A3s"; "A2s";
    "KQs"; "KQo"; "KJs"; "KJo"; "KTs"; "K9s";
    "QJs"; "QJo"; "QTs"; "Q9s";
    "JTs"; "J9s";
    "T9s" ].

Definition getMediumPushRange : list string :=
  getTightPushRange ++
  [ "66"; "55"; "44"; "33"; "22";
    "A9o"; "A8o"; "A7o"; "A6o"; "A5o";
    "KTo"; "K9o"; "K8s"; "K7s"; "K6s"; "K5s";
    "Q9o"; "Q8s"; "Q7s";
    "J9o"; "J8s"; "J7s";
    "T9o"; "T8s"; "98s" ].

Definition getWidePushRange : list string :=
  getMediumPushRange ++
  [ "A4o"; "A3o"; "A2o";
    "K8o"; "K7o"; "K6o"; "K5o"; "K4s"; "K3s"; "K2s";
    "Q8o"; "Q7o"; "Q6s"; "Q5s"; "Q4s";
    "J8o"; "J7o"; "J6s"; "J5s";
    "T8o"; "T7s"; "T6s";
    "98o"; "97s"; "96s";
    "87s"; "86s";
    "76s"; "75s";
    "65s" ].

Definition getVeryWidePushRange : list string :=
  getWidePushRange ++
  [ "K4o"; "K3o"; "K2o";
    "Q6o"; "Q5o"; "Q4o"; "Q3s"; "Q2s";
    "J6o"; "J5o"; "J4s"; "J3s"; "J2s";
    "T7o"; "T6o"; "T5s"; "T4s"; "T3s"; "T2s";
    "97o"; "96o"; "95s"; "94s";
    "87o"; "86o"; "85s"; "84s";
    "76o"; "75o"; "74s";
    "65o"; "64s"; "63s";
    "54s"; "53s";
    "43s"; "42s";
    "32s" ].

(** Only [heroStack] and [blinds] are read. *)
Definition calculateOptimalPushingRange
    (heroStack : A) (villainStacks : list A) (blinds antes : A)
    (position : string) (payouts : list A) : list string :=
  let stackInBB := div heroStack blinds in
  if numLe stackInBB (literal 8 1) then getTightPushRange
  else if numLe stackInBB (literal 12 1) then getMediumPushRange
  else if numLe stackInBB (literal 18 1) then getWidePushRange
  else getVeryWidePushRange.

End PushingRanges.

(** ** Requests and answers

    A route is [validateBody(schema)] followed by its handler.
    [validateBody] checks [req.body] against the schema and answers 400 when
    it does not pass.  The handler then reads [req.body] itself, not the
    value Joi validated: a default of the schema is never applied, and an
    optional field that is left out is [undefined] in the handler.  A body
    is given here by its fields as the handler destructures them: numbers,
    arrays of numbers, strings, and [None] for an optional field that is
    left out; an index is an integer.  Bodies with a field of another JSON
    type, or without a required field, are outside the embedding.  The
    answers are those computed when the cache holds none. *)

Inductive response (T : Type) : Type :=
| Sent (data : T)           (* res.json({ success: true, data }) *)
| Refused                   (* 400, createError.badRequest with Joi's message *)
| Failed (msg : string)     (* 500, createError.internal(msg) *)
| Unfinished.               (* the depth budget of the embedding is used up *)

Arguments Sent {T} data.
Arguments Refused {T}.
Arguments Failed {T} msg.
Arguments Unfinished {T}.

(** [Number.MAX_SAFE_INTEGER] *)
Definition maxSafeInteger : Z := 9007199254740991.

Section Joi.

Context {A : Type} `{Ordered A}.

(** [Joi.number()] on a number: Joi refuses NaN, the infinities and, by its
    default [unsafe: false], a number outside the safe integers. *)
Definition joiNumber (v : A) : bool :=
  numGe v (literal (- maxSafeInteger) 1) && numLe v (literal maxSafeInteger 1).

(** [Joi.number().min(m)] *)
Definition joiNumberMin (m v : A) : bool := joiNumber v && numGe v m.


(** A rule on a field that is not [required()]. *)
Definition joiOptional {T : Type} (rule : T -> bool) (v : option T) : bool :=
  match v with
  | None => true
  | Some x => rule x
  end.

(** An optional number as the handler computes with it: [undefined] is NaN
    in arithmetic and makes every comparison false. *)
Definition numberOf (v : option A) : A :=
  match v with
  | Some x => x
  | None => NaN
  end.

End Joi.

(** An optional index as the handler passes it on: [undefined] equals no
    position of an array, is greater than none and reads [undefined] from
    every array, which is what the index -1 does in the calculator. *)
Definition indexOf (playerIndex : option Z) : Z :=
  match playerIndex with
  | Some k => k
  | None => (-1)%Z
  end.

(** [playerIndex: number = 0], the default parameter of [calculateICM]. *)
Definition indexOrDefault (playerIndex : option Z) : Z :=
  match playerIndex with
  | Some k => k
  | None => 0%Z
  end.

(** The routes of routes/icm.ts and their helpers. *)

Section IcmRoutes.

Context {A : Type} `{Ordered A}.

Local Open Scope string_scope.
Local Open Scope list_scope.

Definition getBubbleFactorInterpretation (bubbleFactor : A) : string :=
  if numGe bubbleFactor (literal 3 1) then
    "EXTREME ICM pressure - play very tight"
  else if numGe bubbleFactor (literal 2 1) then
    "HIGH ICM pressure - significant tightening required"
  else if numGe bubbleFactor (literal 15 10) then
    "MODERATE ICM pressure - some adjustments needed"
  else if numGe bubbleFactor (literal 12 10) then
    "MILD ICM pressure - minor adjustments"
  else "LOW ICM pressure - close to chip EV".

(** [recommendations.push(...)] appends to the array built so far. *)
Definition getBubbleRecommendations
    (bubbleFactor totalPlayers paidPositions : A) : list string :=
  let recommendations := [] in
  let recommendations :=
    if numGe bubbleFactor (literal 2 1) then
      recommendations ++
      [ "Avoid marginal spots";
        "Fold hands you would normally call with";
        "Do not chase draws without strong pot odds" ]
    else recommendations in
  let recommendations :=
    if numEq totalPlayers (add paidPositions one) then
      recommendations ++
      [ "This is the bubble - extreme caution required";
        "Only play premium hands" ]
    else recommendations in
  let recommendations :=
    if numLt bubbleFactor (literal 13 10) then
      recommendations ++
      [ "Can play closer to chip EV";
        "Take profitable spots" ]
    else recommendations in
  recommendations.

Definition calculateConfidence (pushEV foldEV foldEquity : A) : A :=
  let evDiff := mathAbs (sub pushEV foldEV) in
  let baseConfidence := mathMin (mul evDiff (literal 10 1)) (literal 9 10) in
  let foldEquityAdjustment :=
    if gtb foldEquity (literal 8 10) then literal 1 10
    else if numLt foldEquity half then literal (-1) 10
    else zero in
  mathMax half (mathMin (literal 95 100) (add baseConfidence foldEquityAdjustment)).




(** [bubbleFactorSchema]: 2 to 10 stacks of 1 or more, one payout or more,
    none negative, and an index of 0 or more where it is given. *)
Definition bubbleFactorSchema
    (stacks payouts : list A) (playerIndex : option Z) : bool :=
  forallb (joiNumberMin one) stacks
  && (2 <=? length stacks)%nat && (length stacks <=? 10)%nat
  && forallb (joiNumberMin zero) payouts
  && (1 <=? length payouts)%nat
  && joiOptional (fun k => (0 <=? k)%Z && (k <=? maxSafeInteger)%Z) playerIndex.

(** The analysis of POST /api/icm/bubble-factor. *)
Record BubbleAnalysis : Type := {
  bubbleFactor : A;
  icmEquity : A;
  chipEquity : A;
  analysisRiskPremium : A;
  interpretation : string;
  recommendations : list string
}.

(** POST /api/icm/bubble-factor: [validateBody(bubbleFactorSchema)], then
    the handler.  It does not compare the index with the number of stacks.
    An error of the calculator is thrown again with the message of the
    route before its own. *)
Definition bubbleFactorAnalysis
    (stacks payouts : list A) (playerIndex : option Z)
  : response BubbleAnalysis :=
  if negb (bubbleFactorSchema stacks payouts playerIndex) then Refused
  else
    match calculateBubbleFactor stacks payouts (indexOf playerIndex) with
    | None => Unfinished
    | Some bubbleFactor =>
      match calculateICM stacks payouts (indexOrDefault playerIndex) with
      | Returns icmResult =>
        let totalChips := sum stacks in
        let totalPayout := sum payouts in
        Sent
          {| bubbleFactor := bubbleFactor;
             icmEquity := equity icmResult;
             chipEquity :=
               mul (div (get stacks (indexOf playerIndex)) totalChips)
                   totalPayout;
             analysisRiskPremium := riskPremium icmResult;
             interpretation := getBubbleFactorInterpretation bubbleFactor;
             recommendations :=
               getBubbleRecommendations bubbleFactor
                 (ofLength (length stacks)) (ofLength (length payouts)) |}
      | Throws msg => Failed ("Bubble factor calculation failed: " ++ msg)
      | OutOfFuel => Unfinished
      end
    end.

End IcmRoutes.

(** The stack distributions and the bubble factors of the ICM pressure chart
    (routes/charts.ts).  [players] counts the turns of the loops. *)

Section Charts.

Context {A : Type} `{Ordered A}.

Local Open Scope string_scope.
Local Open Scope list_scope.

Definition generateStackDistribution (players : nat) (distribution : string)
  : list A :=
  let baseStack := literal 100 1 in
  if String.eqb distribution "EVEN" then repeat baseStack players
  else if String.eqb distribution "TOP_HEAVY" then
    map (fun i => mul baseStack
                    (sub (literal 2 1) (mul (ofLength i) (literal 2 10))))
        (seq 0 players)
  else if String.eqb distribution "BOTTOM_HEAVY" then
    map (fun i => mul baseStack (add half (mul (ofLength i) (literal 2 10))))
        (seq 0 players)
  else if String.eqb distribution "POLARIZED" then
    map (fun i => if Nat.even i then mul baseStack (literal 2 1)
                  else mul baseStack half)
        (seq 0 players)
  else [].

(** [factors] of [generateICMPressureChart], for one distribution and the
    payouts the chart generated. *)
Definition pressureFactors
    (currentPlayers : nat) (payouts : list A) (distribution : string)
  : list (option A) :=
  let stacks := generateStackDistribution currentPlayers distribution in
  map (fun index =>
         calculateBubbleFactor stacks (slice0 payouts currentPlayers)
                               (Z.of_nat index))
      (seq 0 (length stacks)).

End Charts.

(** The decision of POST /api/solve/push-fold (routes/solver.ts). *)

Inductive Action : Type := FOLD | CALL | RAISE | PUSH | CHECK.

Record Card : Type := {
  rank : string;
  suit : string
}.

(** The ranks and the suits the request schema of the route accepts, in its
    order. *)
Definition validRanks : list string :=
  [ "A"; "K"; "Q"; "J"; "T"; "9"; "8"; "7"; "6"; "5"; "4"; "3"; "2" ]%string.

Definition validSuits : list string := [ "s"; "h"; "d"; "c" ]%string.

(** [Object.values(Position)] *)
Definition positions : list string :=
  [ "UTG"; "UTG1"; "UTG2"; "MP"; "MP1"; "MP2"; "HJ"; "CO"; "BTN"; "SB"; "BB" ]%string.

(** [a.includes(x)] on strings *)
Definition includes (a : list string) (x : string) : bool :=
  existsb (String.eqb x) a.

Section SolverRoutes.

Context {A : Type} `{Ordered A}.

Local Open Scope string_scope.

Definition handString (heroCards0 heroCards1 : Card) : string :=
  if String.eqb (rank heroCards0) (rank heroCards1) then
    rank heroCards0 ++ rank heroCards0
  else
    rank heroCards0 ++ rank heroCards1
    ++ (if String.eqb (suit heroCards0) (suit heroCards1) then "s" else "o").

(** A card of [heroCards]: a valid rank and a valid suit. *)
Definition cardSchema (card : Card) : bool :=
  includes validRanks (rank card) && includes validSuits (suit card).

(** [pushFoldSchema]; [heroCards], where given, has two cards. *)
Definition pushFoldSchema
    (heroStack : A) (villainStacks : list A) (smallBlind bigBlind : A)
    (ante : option A) (position : string) (payouts : list A)
    (heroCards : option (Card * Card)) : bool :=
  joiNumberMin one heroStack
  && forallb (joiNumberMin one) villainStacks
  && (1 <=? length villainStacks)%nat && (length villainStacks <=? 9)%nat
  && joiNumberMin one smallBlind
  && joiNumberMin one bigBlind
  && joiOptional (joiNumberMin zero) ante
  && includes positions position
  && forallb (joiNumberMin zero) payouts
  && joiOptional (fun cards => cardSchema (fst cards) && cardSchema (snd cards))
                 heroCards.

(** [recommendation] of POST /api/solve/push-fold:
    [validateBody(pushFoldSchema)], then the handler.  The handler first
    calls [calculateICM] on the hero's stack followed by the villains';
    when that throws, the route throws with its own message before the
    calculator's. *)
Definition pushFoldRecommendation
    (heroStack : A) (villainStacks : list A) (smallBlind bigBlind : A)
    (ante : option A) (position : string) (payouts : list A)
    (heroCards : option (Card * Card))
  : response Action :=
  if negb (pushFoldSchema heroStack villainStacks smallBlind bigBlind ante
                          position payouts heroCards) then Refused
  else
    let allStacks := heroStack :: villainStacks in
    match calculateICM allStacks payouts 0 with
    | Throws msg => Failed ("Push/fold calculation failed: " ++ msg)
    | OutOfFuel => Unfinished
    | Returns icmResult =>
      let optimalRange :=
        calculateOptimalPushingRange heroStack villainStacks bigBlind
                                     (numberOf ante) position payouts in
      match heroCards with
      | None => Sent FOLD
      | Some (heroCards0, heroCards1) =>
        let inRange := includes optimalRange (handString heroCards0 heroCards1) in
        Sent (if inRange then PUSH else FOLD)
      end
    end.

End SolverRoutes.

(** ** The depth budget

    Facts that hold at every instance of [Number]. *)

Section Depth.

Context {A : Type} `{Number A}.

Lemma removeAt_length (i : nat) (a : list A) :
  (i < length a)%nat -> length (removeAt i a) = (length a - 1)%nat.
Proof.
  revert i; induction a as [|x t IH]; intros i Hi; simpl in *.
  - lia.
  - destruct i as [|j]; simpl.
    + lia.
    + rewrite IH by lia. lia.
Qed.

Lemma get_of_nat (a : list A) (i : nat) : get a (Z.of_nat i) = nth i a NaN.
Proof.
  unfold get. destruct (Z.of_nat i <? 0)%Z eqn:E.
  - apply Z.ltb_lt in E. lia.
  - now rewrite Nat2Z.id.
Qed.

(** A loop over [l] whose every iteration yields a value yields a value. *)
Lemma loop_returns (step : A -> nat -> option A) (l : list nat) :
  (forall i e, In i l -> exists e', step e i = Some e') ->
  forall a, exists v,
    fold_left (fun acc i => match acc with
                            | None => None
                            | Some e => step e i
                            end) l (Some a) = Some v.
Proof.
  induction l as [|i l IH]; intros Hstep a; simpl.
  - now exists a.
  - destruct (Hstep i a (or_introl eq_refl)) as [e' ->].
    apply IH. intros j e Hj. apply Hstep. now right.
Qed.

(** Two loops whose iterations agree on [l] agree. *)
Lemma loop_ext (step step' : A -> nat -> option A) (l : list nat) :
  (forall i e, In i l -> step e i = step' e i) ->
  forall acc,
    fold_left (fun acc i => match acc with
                            | None => None
                            | Some e => step e i
                            end) l acc
    = fold_left (fun acc i => match acc with
                              | None => None
                              | Some e => step' e i
                              end) l acc.
Proof.
  induction l as [|i l IH]; intros Hstep acc; simpl.
  - reflexivity.
  - rewrite IH by (intros j e Hj; apply Hstep; now right).
    destruct acc as [e|]; [|reflexivity].
    now rewrite Hstep by now left.
Qed.

Lemma inMoney_fuel_returns (fuel : nat) :
  forall (stacks payouts : list A) (playerIndex : Z),
    (length stacks <= fuel)%nat ->
    exists v, calculateInMoneyEquity_fuel fuel stacks payouts playerIndex = Some v.
Proof.
  induction fuel as [|fuel IH]; intros stacks payouts playerIndex Hlen.
  - destruct stacks; [|simpl in Hlen; lia]. simpl. eauto.
  - cbn [calculateInMoneyEquity_fuel].
    destruct (length stacks =? 1)%nat; [eauto|].
    destruct (length stacks =? 2)%nat; [eauto|].
    apply loop_returns with
      (step := fun equity i =>
         if (Z.of_nat i =? playerIndex)%Z then _ else _).
    intros i e Hi. apply in_seq in Hi.
    destruct (Z.of_nat i =? playerIndex)%Z; [eauto|].
    destruct (IH (removeAt i stacks)
                 (slice0 payouts (length (removeAt i stacks)))
                 (newPlayerIndex playerIndex i)) as [v ->]; [|eauto].
    rewrite removeAt_length by lia. lia.
Qed.

Lemma playerEquity_fuel_returns (fuel : nat) :
  forall (stacks payouts : list A) (playerIndex : Z),
    (length stacks <= fuel)%nat ->
    exists v, calculatePlayerEquity_fuel fuel stacks payouts playerIndex = Some v.
Proof.
  induction fuel as [|fuel IH]; intros stacks payouts playerIndex Hlen.
  - destruct stacks; [|simpl in Hlen; lia]. simpl. eauto.
  - cbn [calculatePlayerEquity_fuel].
    destruct (length stacks =? 1)%nat; [eauto|].
    destruct (length stacks <=? length payouts)%nat;
      [now apply inMoney_fuel_returns|].
    apply loop_returns with
      (step := fun equity i =>
         if (Z.of_nat i =? playerIndex)%Z then _ else _).
    intros i e Hi. apply in_seq in Hi.
    destruct (Z.of_nat i =? playerIndex)%Z; [eauto|].
    destruct (0 <? _)%nat; [|eauto].
    match goal with
    | |- context [calculatePlayerEquity_fuel fuel ?s ?p ?k] =>
      destruct (IH s p k) as [v ->]; [|eauto]
    end.
    rewrite removeAt_length by lia. lia.
Qed.

Lemma loop_none (step : A -> nat -> option A) (l : list nat) :
  fold_left (fun acc i => match acc with
                          | None => None
                          | Some e => step e i
                          end) l None = None.
Proof. induction l; simpl; auto. Qed.

(** A loop keeps its result when its iterations keep theirs. *)
Lemma loop_mono (step step' : A -> nat -> option A) (l : list nat) :
  (forall i e w, In i l -> step e i = Some w -> step' e i = Some w) ->
  forall acc v,
    fold_left (fun acc i => match acc with
                            | None => None
                            | Some e => step e i
                            end) l acc = Some v ->
    fold_left (fun acc i => match acc with
                            | None => None
                            | Some e => step' e i
                            end) l acc = Some v.
Proof.
  induction l as [|i l IH]; intros Hstep acc v; simpl; [trivial|].
  destruct acc as [e|].
  - destruct (step e i) as [w|] eqn:E.
    + rewrite (Hstep i e w) by (trivial || now left).
      apply IH. intros j e' w' Hj. apply Hstep. now right.
    + now rewrite loop_none.
  - now rewrite loop_none.
Qed.

(** A result does not depend on the budget that allowed it. *)
Lemma inMoney_fuel_mono (fuel : nat) :
  forall (fuel' : nat) (stacks payouts : list A) (playerIndex : Z) (v : A),
    (fuel <= fuel')%nat ->
    calculateInMoneyEquity_fuel fuel stacks payouts playerIndex = Some v ->
    calculateInMoneyEquity_fuel fuel' stacks payouts playerIndex = Some v.
Proof.
  induction fuel as [|fuel IH]; intros fuel' stacks payouts playerIndex v Hle;
    (destruct fuel' as [|fuel']; [try lia; trivial|]);
    cbn [calculateInMoneyEquity_fuel];
    (destruct (length stacks =? 1)%nat; [trivial|]);
    (destruct (length stacks =? 2)%nat; [trivial|]);
    apply loop_mono with
      (step := fun equity i => if (Z.of_nat i =? playerIndex)%Z then _ else _)
      (step' := fun equity i => if (Z.of_nat i =? playerIndex)%Z then _ else _);
    intros i e w _; destruct (Z.of_nat i =? playerIndex)%Z; trivial.
  - discriminate.
  - destruct (calculateInMoneyEquity_fuel fuel _ _ _) as [u|] eqn:E;
      [|discriminate].
    now rewrite (IH fuel' _ _ _ u) by (trivial || lia).
Qed.

Lemma playerEquity_fuel_mono (fuel : nat) :
  forall (fuel' : nat) (stacks payouts : list A) (playerIndex : Z) (v : A),
    (fuel <= fuel')%nat ->
    calculatePlayerEquity_fuel fuel stacks payouts playerIndex = Some v ->
    calculatePlayerEquity_fuel fuel' stacks payouts playerIndex = Some v.
Proof.
  induction fuel as [|fuel IH]; intros fuel' stacks payouts playerIndex v Hle;
    (destruct fuel' as [|fuel']; [try lia; trivial|]);
    cbn [calculatePlayerEquity_fuel];
    (destruct (length stacks =? 1)%nat; [trivial|]);
    (destruct (length stacks <=? length payouts)%nat;
     [apply inMoney_fuel_mono; lia|]);
    apply loop_mono with
      (step := fun equity i => if (Z.of_nat i =? playerIndex)%Z then _ else _)
      (step' := fun equity i => if (Z.of_nat i =? playerIndex)%Z then _ else _);
    intros i e w _; destruct (Z.of_nat i =? playerIndex)%Z; trivial;
    destruct (0 <? _)%nat; trivial.
  - discriminate.
  - destruct (calculatePlayerEquity_fuel fuel _ _ _) as [u|] eqn:E;
      [|discriminate].
    now rewrite (IH fuel' _ _ _ u) by (trivial || lia).
Qed.

(** With a budget of the number of players or more, a call returns what the
    method returns. *)
Lemma inMoney_fuel_enough (fuel : nat) (stacks payouts : list A) (playerIndex : Z) :
  (length stacks <= fuel)%nat ->
  calculateInMoneyEquity_fuel fuel stacks payouts playerIndex
  = calculateInMoneyEquity stacks payouts playerIndex.
Proof.
  intros Hle. unfold calculateInMoneyEquity.
  destruct (inMoney_fuel_returns stacks payouts playerIndex (le_n (length stacks)))
    as [v Hv].
  rewrite Hv. now apply inMoney_fuel_mono with (fuel := length stacks).
Qed.

Lemma playerEquity_fuel_enough (fuel : nat) (stacks payouts : list A) (playerIndex : Z) :
  (length stacks <= fuel)%nat ->
  calculatePlayerEquity_fuel fuel stacks payouts playerIndex
  = calculatePlayerEquity stacks payouts playerIndex.
Proof.
  intros Hle. unfold calculatePlayerEquity.
  destruct (playerEquity_fuel_returns stacks payouts playerIndex (le_n (length stacks)))
    as [v Hv].
  rewrite Hv. now apply playerEquity_fuel_mono with (fuel := length stacks).
Qed.

(** The recursion equations of the two methods, as the source has them. *)
Lemma calculateInMoneyEquity_eq (stacks payouts : list A) (playerIndex : Z) :
  calculateInMoneyEquity stacks payouts playerIndex =
  let n := length stacks in
  if (n =? 1)%nat then Some (get payouts 0)
  else if (n =? 2)%nat then
    let winProb := div (get stacks playerIndex) (add (get stacks 0) (get stacks 1)) in
    Some (add (mul winProb (get payouts 0))
              (mul (sub one winProb) (orZero (get payouts 1))))
  else
    let eliminationProbs := calculateEliminationProbabilities stacks in
    fold_left
      (fun (acc : option A) (i : nat) =>
         match acc with
         | None => None
         | Some equity =>
           if (Z.of_nat i =? playerIndex)%Z then
             Some (add equity (mul (get eliminationProbs (Z.of_nat i))
                                   (orZero (get payouts (Z.of_nat n - 1)))))
           else
             let newStacks := removeAt i stacks in
             match calculateInMoneyEquity newStacks
                     (slice0 payouts (length newStacks))
                     (newPlayerIndex playerIndex i) with
             | None => None
             | Some subEquity =>
               Some (add equity (mul (get eliminationProbs (Z.of_nat i)) subEquity))
             end
         end)
      (seq 0 n) (Some zero).
Proof.
  unfold calculateInMoneyEquity at 1.
  destruct (length stacks) as [|f] eqn:Hn.
  - destruct stacks; [reflexivity|discriminate].
  - cbn [calculateInMoneyEquity_fuel]. rewrite Hn. cbv zeta.
    destruct (S f =? 1)%nat; [reflexivity|].
    destruct (S f =? 2)%nat; [reflexivity|].
    apply loop_ext with
      (step := fun equity i => if (Z.of_nat i =? playerIndex)%Z then _ else _)
      (step' := fun equity i => if (Z.of_nat i =? playerIndex)%Z then _ else _).
    intros i e Hi. apply in_seq in Hi.
    destruct (Z.of_nat i =? playerIndex)%Z; [reflexivity|].
    rewrite inMoney_fuel_enough; [reflexivity|].
    rewrite removeAt_length by lia. lia.
Qed.

Lemma calculatePlayerEquity_eq (stacks payouts : list A) (playerIndex : Z) :
  calculatePlayerEquity stacks payouts playerIndex =
  let n := length stacks in
  if (n =? 1)%nat then Some (orZero (get payouts 0))
  else if (n <=? length payouts)%nat then
    calculateInMoneyEquity stacks payouts playerIndex
  else
    let eliminationProbs := calculateEliminationProbabilities stacks in
    fold_left
      (fun (acc : option A) (i : nat) =>
         match acc with
         | None => None
         | Some equity =>
           if (Z.of_nat i =? playerIndex)%Z then Some equity
           else
             let newStacks := removeAt i stacks in
             let newPayouts :=
               slice0 payouts (Nat.min (length payouts) (length newStacks)) in
             if (0 <? length newPayouts)%nat then
               match calculatePlayerEquity newStacks newPayouts
                       (newPlayerIndex playerIndex i) with
               | None => None
               | Some subEquity =>
                 Some (add equity (mul (get eliminationProbs (Z.of_nat i)) subEquity))
               end
             else Some equity
         end)
      (seq 0 n) (Some zero).
Proof.
  unfold calculatePlayerEquity at 1.
  destruct (length stacks) as [|f] eqn:Hn.
  - destruct stacks; [reflexivity|discriminate].
  - cbn [calculatePlayerEquity_fuel]. rewrite Hn. cbv zeta.
    destruct (S f =? 1)%nat; [reflexivity|].
    destruct (S f <=? length payouts)%nat.
    { unfold calculateInMoneyEquity. now rewrite Hn. }
    apply loop_ext with
      (step := fun equity i => if (Z.of_nat i =? playerIndex)%Z then _ else _)
      (step' := fun equity i => if (Z.of_nat i =? playerIndex)%Z then _ else _).
    intros i e Hi. apply in_seq in Hi.
    destruct (Z.of_nat i =? playerIndex)%Z; [reflexivity|].
    destruct (0 <? _)%nat; [|reflexivity].
    rewrite playerEquity_fuel_enough; [reflexivity|].
    rewrite removeAt_length by lia. lia.
Qed.

End Depth.

(** ** Exact arithmetic: sums *)

Ltac exact_ops :=
  cbn [zero one half NaN add sub mul div ofLength gtb truthy mathMin
       Exact.number] in *.

Section Sums.

Open Scope Q_scope.

Lemma Qsum_app (l1 l2 : list Q) : Qsum (l1 ++ l2) == Qsum l1 + Qsum l2.
Proof.
  induction l1 as [|x l1 IH]; simpl.
  - ring.
  - rewrite IH. ring.
Qed.

Lemma fold_left_Qplus (l : list Q) (a : Q) : fold_left Qplus l a == a + Qsum l.
Proof.
  revert a; induction l as [|x l IH]; intros a; simpl.
  - ring.
  - rewrite IH. ring.
Qed.

Lemma sum_Qsum (l : list Q) : sum l == Qsum l.
Proof. unfold sum. exact_ops. rewrite fold_left_Qplus. ring. Qed.

Lemma Qsum_map_ext {T : Type} (f g : T -> Q) (l : list T) :
  (forall x, In x l -> f x == g x) -> Qsum (map f l) == Qsum (map g l).
Proof.
  induction l as [|x l IH]; intros Hfg; simpl.
  - reflexivity.
  - rewrite (Hfg x) by now left.
    rewrite IH by (intros y Hy; apply Hfg; now right). reflexivity.
Qed.

Lemma Qsum_map_plus {T : Type} (f g : T -> Q) (l : list T) :
  Qsum (map (fun x => f x + g x) l) == Qsum (map f l) + Qsum (map g l).
Proof.
  induction l as [|x l IH]; simpl.
  - ring.
  - rewrite IH. ring.
Qed.

Lemma Qsum_map_scale {T : Type} (c : Q) (f : T -> Q) (l : list T) :
  Qsum (map (fun x => c * f x) l) == c * Qsum (map f l).
Proof.
  induction l as [|x l IH]; simpl.
  - ring.
  - rewrite IH. ring.
Qed.

Lemma Qsum_map_zero {T : Type} (l : list T) : Qsum (map (fun _ => 0) l) == 0.
Proof.
  induction l as [|x l IH]; simpl.
  - reflexivity.
  - rewrite IH. ring.
Qed.

Lemma Qsum_swap {T U : Type} (F : T -> U -> Q) (l1 : list T) (l2 : list U) :
  Qsum (map (fun x => Qsum (map (fun y => F x y) l2)) l1)
  == Qsum (map (fun y => Qsum (map (fun x => F x y) l1)) l2).
Proof.
  induction l1 as [|x l1 IH]; simpl.
  - now rewrite Qsum_map_zero.
  - rewrite IH. now rewrite Qsum_map_plus.
Qed.

Lemma Qsum_nonneg (l : list Q) : Forall (fun x => 0 <= x) l -> 0 <= Qsum l.
Proof.
  induction 1 as [|x l Hx _ IH]; simpl.
  - apply Qle_refl.
  - lra.
Qed.

Lemma Qsum_pos (l : list Q) : l <> [] -> Forall (fun x => 0 < x) l -> 0 < Qsum l.
Proof.
  intros Hne Hall. destruct Hall as [|x l Hx Hl]; [congruence|].
  simpl. assert (0 <= Qsum l).
  { apply Qsum_nonneg. eapply Forall_impl; [|exact Hl].
    intros a Ha. now apply Qlt_le_weak. }
  lra.
Qed.

Lemma bigsum_ext (n : nat) (f g : nat -> Q) :
  (forall k, (k < n)%nat -> f k == g k) -> bigsum n f == bigsum n g.
Proof.
  intros Hfg. apply Qsum_map_ext. intros k Hk. apply in_seq in Hk.
  apply Hfg. lia.
Qed.

Lemma bigsum_scale (n : nat) (c : Q) (f : nat -> Q) :
  bigsum n (fun k => c * f k) == c * bigsum n f.
Proof. apply Qsum_map_scale. Qed.

(** Dropping the term of index [i] and renumbering the terms after it. *)
Lemma bigsum_skip (n i : nat) (c : Q) (g : nat -> Q) :
  (i < n)%nat ->
  bigsum n (fun k => if (k =? i)%nat then c
                     else g (if (i <? k)%nat then (k - 1)%nat else k))
  == c + bigsum (n - 1) g.
Proof.
  intros Hi. unfold bigsum.
  replace n with (i + S (n - 1 - i))%nat at 1 by lia.
  replace (n - 1)%nat with (i + (n - 1 - i))%nat at 2 by lia.
  rewrite !seq_app, !map_app, !Qsum_app. simpl.
  rewrite Nat.eqb_refl.
  rewrite (Qsum_map_ext _ g (seq 0 i)).
  2:{ intros k Hk. apply in_seq in Hk.
      destruct (Nat.eqb_spec k i); [lia|].
      destruct (Nat.ltb_spec i k); [lia|]. reflexivity. }
  rewrite <- seq_shift, map_map.
  rewrite (Qsum_map_ext _ g (seq i (n - 1 - i))).
  2:{ intros k Hk. apply in_seq in Hk.
      destruct (Nat.eqb_spec (S k) i); [lia|].
      destruct (Nat.ltb_spec i (S k)); [|lia].
      now replace (S k - 1)%nat with k by lia. }
  ring.
Qed.

End Sums.

Section Elimination.

Open Scope Q_scope.

Lemma removeAt_positive (i : nat) (stacks : list Q) :
  positive stacks -> positive (removeAt i stacks).
Proof.
  unfold positive. intros Hpos. revert i.
  induction Hpos as [|x l Hx Hl IH]; intros i; simpl.
  - constructor.
  - destruct i; [assumption|]. constructor; auto.
Qed.

Lemma positive_nth (stacks : list Q) (i : nat) :
  positive stacks -> (i < length stacks)%nat -> 0 < nth i stacks 0.
Proof.
  intros Hpos Hi. unfold positive in Hpos. rewrite Forall_forall in Hpos.
  apply Hpos. now apply nth_In.
Qed.

Lemma Qsum_removeAt (f : Q -> Q) (l : list Q) (i : nat) :
  (i < length l)%nat ->
  Qsum (map f (removeAt i l)) + f (nth i l 0) == Qsum (map f l).
Proof.
  revert i; induction l as [|x l IH]; intros i Hi; simpl in *.
  - lia.
  - destruct i as [|j]; simpl.
    + ring.
    + rewrite <- (IH j) by lia. ring.
Qed.

Lemma map_nth_seq (f : Q -> Q) (l : list Q) :
  map (fun j => f (nth j l 0)) (seq 0 (length l)) = map f l.
Proof.
  induction l as [|x l IH]; simpl.
  - reflexivity.
  - f_equal. now rewrite <- seq_shift, map_map.
Qed.

Lemma bigsum_nth (l : list Q) : bigsum (length l) (fun j => nth j l 0) == Qsum l.
Proof.
  unfold bigsum. rewrite (map_nth_seq (fun x => x)). now rewrite map_id.
Qed.

Lemma bigsum_except (n i : nat) (g : nat -> Q) :
  (i < n)%nat ->
  bigsum n (fun j => if (j =? i)%nat then 0 else g j) + g i == bigsum n g.
Proof.
  intros Hi. unfold bigsum.
  replace n with (i + S (n - 1 - i))%nat by lia.
  rewrite !seq_app, !map_app, !Qsum_app. simpl. rewrite Nat.eqb_refl.
  rewrite (Qsum_map_ext _ g (seq 0 i)).
  2:{ intros k Hk. apply in_seq in Hk.
      destruct (Nat.eqb_spec k i); [lia|reflexivity]. }
  rewrite (Qsum_map_ext _ g (seq (S i) _)).
  2:{ intros k Hk. apply in_seq in Hk.
      destruct (Nat.eqb_spec k i); [lia|reflexivity]. }
  ring.
Qed.

(** The reciprocals the loop of the source adds up. *)
Lemma reciprocals_fold (l : list Q) (a : Q) :
  fold_left (fun sum stack => add sum (div one stack)) l a
  == a + Qsum (map (fun s => 1 / s) l).
Proof.
  exact_ops. revert a; induction l as [|x l IH]; intros a; simpl.
  - ring.
  - rewrite IH. ring.
Qed.

Lemma reciprocals_removeAt (stacks : list Q) (i : nat) :
  (i < length stacks)%nat ->
  Qsum (map (fun s => 1 / s) (removeAt i stacks))
  == Spec.reciprocalsOfOthers stacks i.
Proof.
  intros Hi. unfold Spec.reciprocalsOfOthers.
  pose proof (Qsum_removeAt (fun s => 1 / s) stacks Hi) as E1.
  pose proof (bigsum_except (fun j => 1 / nth j stacks 0) Hi) as E2.
  unfold bigsum in E2 at 2.
  rewrite (map_nth_seq (fun s => 1 / s)) in E2.
  simpl in E1. lra.
Qed.

Lemma reciprocals_positive (l : list Q) :
  l <> [] -> positive l -> 0 < Qsum (map (fun s => 1 / s) l).
Proof.
  intros Hne Hpos. apply Qsum_pos.
  - destruct l; [congruence|discriminate].
  - unfold positive in Hpos. rewrite Forall_forall in *.
    intros y Hy. apply in_map_iff in Hy. destruct Hy as [s [<- Hs]].
    apply Hpos in Hs. unfold Qdiv. rewrite Qmult_1_l.
    now apply Qinv_lt_0_compat.
Qed.

(** The value stored in [probs[i]] is the [p_i] of the specification. *)
Lemma rawProbability_spec (stacks : list Q) (i : nat) :
  (i < length stacks)%nat ->
  rawProbability stacks i == Spec.rawProbability stacks i.
Proof.
  intros Hi. unfold rawProbability, Spec.rawProbability, Spec.harmonicMean.
  rewrite get_of_nat, removeAt_length by assumption.
  rewrite reciprocals_fold, reciprocals_removeAt by assumption.
  exact_ops.
  assert (E : inject_Z (Z.of_nat (length stacks - 1))
              == inject_Z (Z.of_nat (length stacks)) - 1).
  { rewrite Nat2Z.inj_sub by lia. unfold Qminus, Z.sub.
    rewrite inject_Z_plus, inject_Z_opp. reflexivity. }
  rewrite E, Qplus_0_l. reflexivity.
Qed.

Lemma rawProbability_positive (stacks : list Q) (i : nat) :
  (2 <= length stacks)%nat -> positive stacks -> (i < length stacks)%nat ->
  0 < rawProbability stacks i.
Proof.
  intros Hn Hpos Hi. unfold rawProbability.
  rewrite get_of_nat, removeAt_length by assumption.
  pose proof (positive_nth Hpos Hi) as Hs.
  assert (Hr : 0 < Qsum (map (fun s => 1 / s) (removeAt i stacks))).
  { apply reciprocals_positive.
    - intros E. apply (f_equal (@length Q)) in E.
      rewrite removeAt_length in E by assumption. simpl in E. lia.
    - now apply removeAt_positive. }
  pose proof (reciprocals_fold (removeAt i stacks) 0) as Ef.
  exact_ops.
  set (R := fold_left _ _ _) in *.
  assert (HR : 0 < R) by lra.
  assert (Hl : 0 < inject_Z (Z.of_nat (length stacks - 1))).
  { change 0 with (inject_Z 0). rewrite <- Zlt_Qlt. lia. }
  set (L := inject_Z _) in *.
  assert (HH : 0 < L / R).
  { unfold Qdiv. apply Qmult_lt_0_compat; [assumption|].
    now apply Qinv_lt_0_compat. }
  unfold Qdiv at 1. apply Qmult_lt_0_compat; [assumption|].
  apply Qinv_lt_0_compat. lra.
Qed.

End Elimination.

Section EliminationVector.

Open Scope Q_scope.


Lemma rawTotal_positive (stacks : list Q) :
  (2 <= length stacks)%nat -> positive stacks -> 0 < rawTotal stacks.
Proof.
  intros Hn Hpos. apply Qsum_pos.
  - destruct stacks; simpl in *; [lia|discriminate].
  - rewrite Forall_forall. intros y Hy.
    apply in_map_iff in Hy. destruct Hy as [i [<- Hi]].
    apply in_seq in Hi. apply rawProbability_positive; trivial; lia.
Qed.

Lemma nth_map_in {T U : Type} (f : T -> U) (l : list T) (i : nat) (d : U) (d' : T) :
  (i < length l)%nat -> nth i (map f l) d = f (nth i l d').
Proof.
  revert i; induction l as [|x l IH]; intros [|i] Hi; simpl in *;
    try lia; trivial.
  apply IH. lia.
Qed.

Lemma elimination_nth (stacks : list Q) (i : nat) :
  (i < length stacks)%nat ->
  nth i (calculateEliminationProbabilities stacks) 0
  == rawProbability stacks i / rawTotal stacks.
Proof.
  intros Hi. unfold calculateEliminationProbabilities.
  rewrite nth_map_in with (d' := 0) by now rewrite length_map, length_seq.
  rewrite nth_map_in with (d' := 0%nat) by now rewrite length_seq.
  rewrite seq_nth by assumption.
  exact_ops. rewrite fold_left_Qplus, Qplus_0_l. reflexivity.
Qed.

Lemma elimination_positive (stacks : list Q) (i : nat) :
  (2 <= length stacks)%nat -> positive stacks -> (i < length stacks)%nat ->
  0 < nth i (calculateEliminationProbabilities stacks) 0.
Proof.
  intros Hn Hpos Hi. rewrite elimination_nth by assumption.
  unfold Qdiv. apply Qmult_lt_0_compat.
  - now apply rawProbability_positive.
  - apply Qinv_lt_0_compat. now apply rawTotal_positive.
Qed.

Lemma elimination_total (stacks : list Q) :
  (2 <= length stacks)%nat -> positive stacks ->
  bigsum (length stacks)
         (fun i => nth i (calculateEliminationProbabilities stacks) 0) == 1.
Proof.
  intros Hn Hpos. pose proof (rawTotal_positive Hn Hpos) as HT.
  unfold bigsum.
  rewrite (Qsum_map_ext _ (fun i => / rawTotal stacks * rawProbability stacks i)).
  2:{ intros i Hi. apply in_seq in Hi.
      rewrite elimination_nth by lia. unfold Qdiv. ring. }
  rewrite Qsum_map_scale. fold (bigsum (length stacks) (rawProbability stacks)).
  fold (rawTotal stacks). field. lra.
Qed.

End EliminationVector.

(** ** Exact arithmetic: the equities *)

Section Equities.

Open Scope Q_scope.

Lemma calculateInMoneyEquity_returns {A : Type} `{Number A}
    (stacks payouts : list A) (playerIndex : Z) :
  exists v, calculateInMoneyEquity stacks payouts playerIndex = Some v.
Proof. apply inMoney_fuel_returns. apply le_n. Qed.

Lemma calculatePlayerEquity_returns {A : Type} `{Number A}
    (stacks payouts : list A) (playerIndex : Z) :
  exists v, calculatePlayerEquity stacks payouts playerIndex = Some v.
Proof. apply playerEquity_fuel_returns. apply le_n. Qed.

Lemma inMoneyV_some (stacks payouts : list Q) (k : nat) :
  calculateInMoneyEquity stacks payouts (Z.of_nat k)
  = Some (inMoneyV stacks payouts k).
Proof.
  unfold inMoneyV.
  now destruct (calculateInMoneyEquity_returns stacks payouts (Z.of_nat k)) as [v ->].
Qed.

Lemma equityV_some (stacks payouts : list Q) (k : nat) :
  calculatePlayerEquity stacks payouts (Z.of_nat k)
  = Some (equityV stacks payouts k).
Proof.
  unfold equityV.
  now destruct (calculatePlayerEquity_returns stacks payouts (Z.of_nat k)) as [v ->].
Qed.

Lemma newPlayerIndex_of_nat (k i : nat) :
  newPlayerIndex (Z.of_nat k) i
  = Z.of_nat (if (i <? k)%nat then (k - 1)%nat else k).
Proof.
  unfold newPlayerIndex.
  destruct (Z.ltb_spec (Z.of_nat i) (Z.of_nat k));
    destruct (Nat.ltb_spec i k); lia.
Qed.

Lemma orZero_exact (x : Q) : orZero x == x.
Proof.
  unfold orZero. exact_ops. destruct (Qeq_bool x 0) eqn:E; simpl.
  - apply Qeq_bool_eq in E. now rewrite E.
  - reflexivity.
Qed.

(** A loop that adds [t i] at iteration [i] returns the sum of the [t i]. *)
Lemma loop_total (step : Q -> nat -> option Q) (t : nat -> Q) (l : list nat) (a : Q) :
  (forall i e, In i l -> exists e', step e i = Some e' /\ e' == e + t i) ->
  exists v,
    fold_left (fun acc i => match acc with
                            | None => None
                            | Some e => step e i
                            end) l (Some a) = Some v
    /\ v == a + Qsum (map t l).
Proof.
  revert a; induction l as [|i l IH]; intros a Hstep; simpl.
  - exists a. split; [reflexivity|ring].
  - destruct (Hstep i a (or_introl eq_refl)) as [e' [-> He']].
    destruct (IH e' (fun j e Hj => Hstep j e (or_intror Hj))) as [v [-> Hv]].
    exists v. split; [reflexivity|]. rewrite Hv, He'. ring.
Qed.

Lemma loop_total_val (step : Q -> nat -> option Q) (t : nat -> Q) (n : nat) :
  (forall i e, In i (seq 0 n) ->
               exists e', step e i = Some e' /\ e' == e + t i) ->
  val (fold_left (fun acc i => match acc with
                               | None => None
                               | Some e => step e i
                               end) (seq 0 n) (Some 0)) == bigsum n t.
Proof.
  intros Hstep. destruct (loop_total step t (seq 0 n) 0 Hstep) as [v [-> Hv]].
  simpl. rewrite Hv. unfold bigsum. ring.
Qed.

(** The recursion of [calculateInMoneyEquity], three players or more. *)
Lemma inMoneyV_eq (stacks payouts : list Q) (k : nat) :
  (3 <= length stacks)%nat ->
  inMoneyV stacks payouts k ==
  bigsum (length stacks) (fun i =>
    nth i (calculateEliminationProbabilities stacks) 0 *
    (if (i =? k)%nat then nth (length stacks - 1) payouts 0
     else inMoneyV (removeAt i stacks) (firstn (length stacks - 1) payouts)
                   (if (i <? k)%nat then (k - 1)%nat else k))).
Proof.
  intros Hn. unfold inMoneyV at 1. rewrite calculateInMoneyEquity_eq. cbv zeta.
  destruct (Nat.eqb_spec (length stacks) 1); [lia|].
  destruct (Nat.eqb_spec (length stacks) 2); [lia|].
  apply loop_total_val with
    (step := fun equity i => if (Z.of_nat i =? Z.of_nat k)%Z then _ else _).
  intros i e Hi. apply in_seq in Hi. rewrite get_of_nat.
  destruct (Z.eqb_spec (Z.of_nat i) (Z.of_nat k)) as [E|E];
    destruct (Nat.eqb_spec i k) as [E'|E']; try lia.
  - eexists. split; [reflexivity|]. exact_ops.
    replace (Z.of_nat (length stacks) - 1)%Z
      with (Z.of_nat (length stacks - 1)) by lia.
    rewrite get_of_nat, orZero_exact. reflexivity.
  - rewrite newPlayerIndex_of_nat, removeAt_length by lia.
    unfold slice0. rewrite inMoneyV_some.
    eexists. split; reflexivity.
Qed.

(** The recursion of [calculatePlayerEquity], more players than payouts. *)
Lemma equityV_eq (stacks payouts : list Q) (k : nat) :
  (2 <= length stacks)%nat -> (length payouts < length stacks)%nat ->
  equityV stacks payouts k ==
  bigsum (length stacks) (fun i =>
    if (i =? k)%nat then 0
    else if (0 <? length payouts)%nat then
      nth i (calculateEliminationProbabilities stacks) 0 *
      equityV (removeAt i stacks) payouts
              (if (i <? k)%nat then (k - 1)%nat else k)
    else 0).
Proof.
  intros Hn Hm. unfold equityV at 1. rewrite calculatePlayerEquity_eq. cbv zeta.
  destruct (Nat.eqb_spec (length stacks) 1); [lia|].
  destruct (Nat.leb_spec (length stacks) (length payouts)); [lia|].
  apply loop_total_val with
    (step := fun equity i => if (Z.of_nat i =? Z.of_nat k)%Z then _ else _).
  intros i e Hi. apply in_seq in Hi. rewrite get_of_nat.
  destruct (Z.eqb_spec (Z.of_nat i) (Z.of_nat k)) as [E|E];
    destruct (Nat.eqb_spec i k) as [E'|E']; try lia.
  - eexists. split; [reflexivity|]. ring.
  - rewrite newPlayerIndex_of_nat, removeAt_length by lia.
    unfold slice0.
    rewrite Nat.min_l by lia. rewrite firstn_all.
    destruct (0 <? length payouts)%nat.
    + rewrite equityV_some. eexists. split; reflexivity.
    + eexists. split; [reflexivity|]. ring.
Qed.

End Equities.

(** ** Conservation *)

Section Conservation.

Open Scope Q_scope.

Lemma Qsum_firstn_last (p : list Q) (j : nat) :
  Qsum (firstn (S j) p) == Qsum (firstn j p) + nth j p 0.
Proof.
  revert p; induction j as [|j IH]; intros [|x t]; simpl; try ring.
  specialize (IH t). simpl in IH. rewrite IH. ring.
Qed.

(** The terms of the recursion, summed over the tracked player: the branch
    where player [i] goes out pays [c] to [i] and what the others get in
    the reduced problem [g]. *)
Lemma bigsum_branches (n : nat) (e : nat -> Q) (c : nat -> Q) (g : nat -> nat -> Q) :
  bigsum n (fun k => bigsum n (fun i =>
    e i * (if (i =? k)%nat then c i
           else g i (if (i <? k)%nat then (k - 1)%nat else k))))
  == bigsum n (fun i => e i * (c i + bigsum (n - 1) (g i))).
Proof.
  unfold bigsum at 1 2. rewrite Qsum_swap. apply Qsum_map_ext.
  intros i Hi. apply in_seq in Hi. rewrite Qsum_map_scale.
  apply Qmult_comp; [reflexivity|].
  rewrite <- (@bigsum_skip n i (c i) (g i)) by lia.
  apply Qsum_map_ext. intros k _. rewrite (Nat.eqb_sym k i). reflexivity.
Qed.

Lemma inMoney_conservation (n : nat) :
  forall stacks payouts : list Q,
    length stacks = n -> (2 <= n)%nat -> (n <= length payouts)%nat ->
    positive stacks ->
    bigsum n (inMoneyV stacks payouts) == Qsum (firstn n payouts).
Proof.
  induction n as [|n IH]; intros stacks payouts Hlen Hn Hm Hpos; [lia|].
  destruct (Nat.eq_dec n 1) as [->|Hn1].
  - (* heads-up *)
    destruct stacks as [|s0 [|s1 [|? ?]]]; try discriminate.
    destruct payouts as [|p0 [|p1 rest]]; simpl in Hm; try lia.
    inversion Hpos as [|? ? H0 Hpos']; subst.
    inversion Hpos' as [|? ? H1 _]; subst.
    unfold bigsum, inMoneyV, calculateInMoneyEquity. simpl.
    unfold get. simpl. rewrite !orZero_exact. field. lra.
  - (* three players or more *)
    rewrite (@bigsum_ext _ _ (fun k => bigsum (S n) (fun i =>
      nth i (calculateEliminationProbabilities stacks) 0 *
      (if (i =? k)%nat then nth n payouts 0
       else inMoneyV (removeAt i stacks) (firstn n payouts)
                     (if (i <? k)%nat then (k - 1)%nat else k))))).
    2:{ intros k _. rewrite inMoneyV_eq by lia. rewrite Hlen.
        now replace (S n - 1)%nat with n by lia. }
    rewrite (bigsum_branches (S n)
               (fun i => nth i (calculateEliminationProbabilities stacks) 0)
               (fun _ => nth n payouts 0)
               (fun i => inMoneyV (removeAt i stacks) (firstn n payouts))).
    replace (S n - 1)%nat with n by lia.
    rewrite (@bigsum_ext _ _ (fun i =>
      Qsum (firstn (S n) payouts)
      * nth i (calculateEliminationProbabilities stacks) 0)).
    2:{ intros i Hi.
        rewrite IH.
        - rewrite firstn_firstn, Nat.min_id, Qsum_firstn_last. ring.
        - rewrite removeAt_length by lia. lia.
        - lia.
        - rewrite length_firstn. lia.
        - now apply removeAt_positive. }
    rewrite bigsum_scale.
    rewrite <- Hlen, elimination_total by (trivial || lia). ring.
Qed.

Lemma equityV_single (stacks payouts : list Q) (k : nat) :
  length stacks = 1%nat -> equityV stacks payouts k == nth 0 payouts 0.
Proof.
  intros Hn. unfold equityV. rewrite calculatePlayerEquity_eq. cbv zeta.
  rewrite Hn. simpl. rewrite orZero_exact. reflexivity.
Qed.

Lemma equityV_inMoney (stacks payouts : list Q) (k : nat) :
  length stacks <> 1%nat -> (length stacks <= length payouts)%nat ->
  equityV stacks payouts k = inMoneyV stacks payouts k.
Proof.
  intros Hn Hm. unfold equityV. rewrite calculatePlayerEquity_eq. cbv zeta.
  destruct (Nat.eqb_spec (length stacks) 1); [lia|].
  destruct (Nat.leb_spec (length stacks) (length payouts)); [|lia].
  reflexivity.
Qed.

Lemma equityV_no_payouts (stacks : list Q) (k : nat) :
  equityV stacks [] k == 0.
Proof.
  destruct (Nat.leb_spec (length stacks) 1) as [Hn|Hn].
  - destruct stacks as [|s0 [|? ?]]; simpl in Hn; try lia; reflexivity.
  - rewrite equityV_eq by (simpl; lia).
    unfold bigsum. rewrite <- (Qsum_map_zero (seq 0 (length stacks))).
    apply Qsum_map_ext. intros i _. simpl. now destruct (i =? k)%nat.
Qed.

Lemma equity_conservation (n : nat) :
  forall stacks payouts : list Q,
    length stacks = n -> positive stacks ->
    bigsum n (equityV stacks payouts) == Qsum (firstn n payouts).
Proof.
  induction n as [|n IH]; intros stacks payouts Hlen Hpos.
  - reflexivity.
  - destruct (Nat.eq_dec n 0) as [->|Hn0].
    { (* one player *)
      unfold bigsum. simpl. rewrite equityV_single by assumption.
      destruct payouts; simpl; ring. }
    destruct (Nat.leb_spec (S n) (length payouts)) as [Hm|Hm].
    { (* in the money *)
      rewrite (@bigsum_ext _ _ (inMoneyV stacks payouts)).
      - apply inMoney_conservation; trivial; lia.
      - intros k _. rewrite equityV_inMoney by lia. reflexivity. }
    (* more players than payouts *)
    rewrite (@bigsum_ext _ _ (fun k => bigsum (S n) (fun i =>
      nth i (calculateEliminationProbabilities stacks) 0 *
      (if (i =? k)%nat then 0
       else equityV (removeAt i stacks) payouts
                    (if (i <? k)%nat then (k - 1)%nat else k))))).
    2:{ intros k _. rewrite equityV_eq by lia. rewrite Hlen.
        apply bigsum_ext. intros i Hi.
        destruct (i =? k)%nat; [ring|].
        destruct (Nat.ltb_spec 0 (length payouts)) as [Hp|Hp]; [reflexivity|].
        destruct payouts; [|simpl in Hp; lia].
        rewrite equityV_no_payouts. ring. }
    rewrite (bigsum_branches (S n)
               (fun i => nth i (calculateEliminationProbabilities stacks) 0)
               (fun _ => 0)
               (fun i => equityV (removeAt i stacks) payouts)).
    replace (S n - 1)%nat with n by lia.
    rewrite (@bigsum_ext _ _ (fun i =>
      Qsum (firstn (S n) payouts)
      * nth i (calculateEliminationProbabilities stacks) 0)).
    2:{ intros i Hi.
        rewrite IH.
        - rewrite !firstn_all2 by lia. ring.
        - rewrite removeAt_length by lia. lia.
        - now apply removeAt_positive. }
    rewrite bigsum_scale.
    rewrite <- Hlen, elimination_total by (trivial || lia). ring.
Qed.

End Conservation.

(** ** Exact arithmetic: a closed form of the elimination probabilities *)

Section ClosedForm.

Open Scope Q_scope.

Lemma Qsquare_nonneg (a : Q) : 0 <= a * a.
Proof.
  destruct (Qlt_le_dec a 0) as [Ha|Ha].
  - setoid_replace (a * a) with ((- a) * (- a)) by ring.
    apply Qmult_le_0_compat; lra.
  - now apply Qmult_le_0_compat.
Qed.

Lemma Qdiv_nonneg (a b : Q) : 0 <= a -> 0 < b -> 0 <= a / b.
Proof.
  intros Ha Hb. unfold Qdiv. apply Qmult_le_0_compat; [assumption|].
  apply Qlt_le_weak. now apply Qinv_lt_0_compat.
Qed.

Lemma Qdiv_pos (a b : Q) : 0 < a -> 0 < b -> 0 < a / b.
Proof.
  intros Ha Hb. unfold Qdiv. apply Qmult_lt_0_compat; [assumption|].
  now apply Qinv_lt_0_compat.
Qed.

Lemma recip_positive (stacks : list Q) (j : nat) :
  positive stacks -> (j < length stacks)%nat -> 0 < recip stacks j.
Proof.
  intros Hpos Hj. unfold recip. apply Qdiv_pos; [reflexivity|].
  now apply positive_nth.
Qed.

Lemma bigsum_positive (n : nat) (f : nat -> Q) :
  (0 < n)%nat -> (forall j, (j < n)%nat -> 0 < f j) -> 0 < bigsum n f.
Proof.
  intros Hn Hf. apply Qsum_pos.
  - destruct n; [lia|discriminate].
  - rewrite Forall_forall. intros y Hy.
    apply in_map_iff in Hy. destruct Hy as [j [<- Hj]].
    apply in_seq in Hj. apply Hf. lia.
Qed.

Lemma bigsum_le (n : nat) (f g : nat -> Q) :
  (forall j, (j < n)%nat -> f j <= g j) -> bigsum n f <= bigsum n g.
Proof.
  unfold bigsum. intros Hfg.
  assert (H : forall l, (forall j, In j l -> f j <= g j) ->
                        Qsum (map f l) <= Qsum (map g l)).
  { induction l as [|j l IH]; intros Hl; simpl.
    - apply Qle_refl.
    - apply Qplus_le_compat; [apply Hl; now left|].
      apply IH. intros; apply Hl; now right. }
  apply H. intros j Hj. apply in_seq in Hj. apply Hfg. lia.
Qed.

Lemma fieldSize_nonneg (stacks : list Q) :
  (2 <= length stacks)%nat -> 0 <= fieldSize stacks.
Proof.
  intros Hn. unfold fieldSize.
  assert (inject_Z 2 <= inject_Z (Z.of_nat (length stacks))).
  { rewrite <- Zle_Qle. lia. }
  change (inject_Z 2) with 2 in *. lra.
Qed.

Lemma recipTotal_others (stacks : list Q) (i : nat) :
  (i < length stacks)%nat ->
  Spec.reciprocalsOfOthers stacks i + recip stacks i == recipTotal stacks.
Proof.
  intros Hi. unfold Spec.reciprocalsOfOthers, recipTotal.
  now rewrite <- (bigsum_except (recip stacks) Hi).
Qed.

Lemma reciprocalsOfOthers_positive (stacks : list Q) (i : nat) :
  (2 <= length stacks)%nat -> positive stacks -> (i < length stacks)%nat ->
  0 < Spec.reciprocalsOfOthers stacks i.
Proof.
  intros Hn Hpos Hi. rewrite <- reciprocals_removeAt by assumption.
  apply reciprocals_positive.
  - intros E. apply (f_equal (@length Q)) in E.
    rewrite removeAt_length in E by assumption. simpl in E. lia.
  - now apply removeAt_positive.
Qed.

Lemma recipTotal_positive (stacks : list Q) :
  (2 <= length stacks)%nat -> positive stacks -> 0 < recipTotal stacks.
Proof.
  intros Hn Hpos. apply bigsum_positive; [lia|].
  intros j Hj. now apply recip_positive.
Qed.

Lemma weight_positive (stacks : list Q) (j : nat) :
  (2 <= length stacks)%nat -> positive stacks -> (j < length stacks)%nat ->
  0 < weight stacks j.
Proof.
  intros Hn Hpos Hj. unfold weight, weightOf.
  pose proof (recip_positive Hpos Hj) as Hr.
  pose proof (recipTotal_positive Hn Hpos) as HR.
  pose proof (fieldSize_nonneg stacks Hn) as Hc.
  apply Qdiv_pos; [assumption|].
  assert (0 <= fieldSize stacks * recip stacks j)
    by (apply Qmult_le_0_compat; lra).
  lra.
Qed.

(** [probs[i]] is [(n - 1) / (n - 2 + stacks[i] * R)], where [R] is the sum
    of the reciprocals of all the stacks. *)
Lemma rawProbability_closed (stacks : list Q) (i : nat) :
  (2 <= length stacks)%nat -> positive stacks -> (i < length stacks)%nat ->
  rawProbability stacks i == (fieldSize stacks + 1) * weight stacks i.
Proof.
  intros Hn Hpos Hi. rewrite rawProbability_spec by assumption.
  unfold Spec.rawProbability, Spec.harmonicMean, weight, weightOf.
  pose proof (recipTotal_others stacks Hi) as ER.
  pose proof (reciprocalsOfOthers_positive Hn Hpos Hi) as Ho.
  pose proof (positive_nth Hpos Hi) as Hs.
  pose proof (fieldSize_nonneg stacks Hn) as Hc.
  rewrite <- ER. unfold recip, fieldSize in *.
  set (o := Spec.reciprocalsOfOthers stacks i) in *.
  set (s := nth i stacks 0) in *.
  set (m := inject_Z (Z.of_nat (length stacks))) in *.
  assert (Hso : 0 < s * o) by now apply Qmult_lt_0_compat.
  field. repeat split; lra.
Qed.

Lemma elimination_closed (stacks : list Q) (i : nat) :
  (2 <= length stacks)%nat -> positive stacks -> (i < length stacks)%nat ->
  nth i (calculateEliminationProbabilities stacks) 0
  == weight stacks i / bigsum (length stacks) (weight stacks).
Proof.
  intros Hn Hpos Hi. rewrite elimination_nth by assumption.
  unfold rawTotal.
  rewrite (@bigsum_ext _ _ (fun j => (fieldSize stacks + 1) * weight stacks j))
    by (intros; now apply rawProbability_closed).
  rewrite bigsum_scale, rawProbability_closed by assumption.
  pose proof (fieldSize_nonneg stacks Hn) as Hc.
  assert (HG : 0 < bigsum (length stacks) (weight stacks)).
  { apply bigsum_positive; [lia|]. intros; now apply weight_positive. }
  field. split; lra.
Qed.

End ClosedForm.

(** ** Exact arithmetic: a larger stack and the elimination probabilities *)

Section LargerStack.

Open Scope Q_scope.

(** The bounds below are on single terms of the comparison of two elimination
    vectors: [ri], [rj] and [rk] are reciprocals of stacks, [R] and [R'] the
    sums of the reciprocals before and after the change, [c] the number of
    players less two. *)
Lemma other_bound (c ri rj R R' : Q) :
  0 <= c -> 0 < ri -> 0 < rj -> ri + rj <= R' -> R' <= R ->
  4 * (c + 2) * (rj * (ri - rj)) <= (R + c * rj) * (R' + c * rj).
Proof.
  intros Hc Hi Hj HR' HR.
  assert (H1 : 4 * (c + 2) * (rj * (ri - rj)) <= (ri + (c + 1) * rj) * (ri + (c + 1) * rj)).
  { pose proof (Qsquare_nonneg (ri - (c + 3) * rj)) as Hsq.
    assert (E : (ri + (c + 1) * rj) * (ri + (c + 1) * rj) - 4 * (c + 2) * (rj * (ri - rj))
                == (ri - (c + 3) * rj) * (ri - (c + 3) * rj)) by ring.
    lra. }
  assert (H0 : 0 <= c * rj) by (apply Qmult_le_0_compat; lra).
  assert (H4 : 0 <= ri + (c + 1) * rj) by lra.
  assert (H5 : (ri + (c + 1) * rj) * (ri + (c + 1) * rj) <= (R + c * rj) * (R' + c * rj)).
  { apply Qmult_le_compat_nonneg; split; lra. }
  lra.
Qed.

Lemma hero_bound (c ri rk rk' R0 : Q) :
  0 <= c -> 0 < ri -> 0 < rk' -> rk' <= rk -> 0 < R0 ->
  (rk - rk') * ((R0 + (c + 1) * rk) * (R0 + (c + 1) * rk'))
  <= (c + 1) * (rk * (R0 + rk + c * ri) * (R0 + (c + 1) * rk')
                - rk' * (R0 + rk' + c * ri) * (R0 + (c + 1) * rk)).
Proof.
  intros Hc Hi Hk' Hk H0.
  assert (E : (c + 1) * (rk * (R0 + rk + c * ri) * (R0 + (c + 1) * rk')
              - rk' * (R0 + rk' + c * ri) * (R0 + (c + 1) * rk))
              - (rk - rk') * ((R0 + (c + 1) * rk) * (R0 + (c + 1) * rk'))
              == (rk - rk') * (c * R0 * (R0 + (c + 1) * ri))) by ring.
  assert (P : 0 <= (rk - rk') * (c * R0 * (R0 + (c + 1) * ri))).
  { apply Qmult_le_0_compat; [lra|].
    apply Qmult_le_0_compat; [apply Qmult_le_0_compat; lra|].
    assert (0 <= (c + 1) * ri) by (apply Qmult_le_0_compat; lra). lra. }
  lra.
Qed.

(** The term of a third player [j]. *)
Lemma tau_other (c ri rj R R' : Q) :
  0 <= c -> 0 < ri -> 0 < rj -> ri + rj <= R' -> R' <= R ->
  - (ri / ((R + c * ri) * (R' + c * ri))) * (c * (R - R') / (4 * (c + 2)))
  <= weightOf c R' ri * weightOf c R rj - weightOf c R ri * weightOf c R' rj.
Proof.
  intros Hc Hi Hj HR' HR. unfold weightOf.
  pose proof (other_bound Hc Hi Hj HR' HR) as Hb.
  assert (Hci : 0 <= c * ri) by (apply Qmult_le_0_compat; lra).
  assert (Hcj : 0 <= c * rj) by (apply Qmult_le_0_compat; lra).
  set (Ai := R + c * ri) in *. set (Ai' := R' + c * ri) in *.
  set (Aj := R + c * rj) in *. set (Aj' := R' + c * rj) in *.
  assert (HAi : 0 < Ai) by (unfold Ai; lra).
  assert (HAi' : 0 < Ai') by (unfold Ai'; lra).
  assert (HAj : 0 < Aj) by (unfold Aj; lra).
  assert (HAj' : 0 < Aj') by (unfold Aj'; lra).
  assert (E : ri / Ai' * (rj / Aj) - ri / Ai * (rj / Aj')
              - - (ri / (Ai * Ai')) * (c * (R - R') / (4 * (c + 2)))
              == (ri * (c * (R - R')) * (Aj * Aj' - 4 * (c + 2) * (rj * (ri - rj))))
                 / (4 * (c + 2) * (Ai * Ai' * (Aj * Aj')))).
  { unfold Ai, Ai', Aj, Aj'. field. repeat split; unfold Ai, Ai', Aj, Aj' in *; lra. }
  assert (P : 0 <= (ri * (c * (R - R')) * (Aj * Aj' - 4 * (c + 2) * (rj * (ri - rj))))
                 / (4 * (c + 2) * (Ai * Ai' * (Aj * Aj')))).
  { apply Qdiv_nonneg.
    - apply Qmult_le_0_compat; [|lra].
      apply Qmult_le_0_compat; [lra|]. apply Qmult_le_0_compat; lra.
    - repeat apply Qmult_lt_0_compat; lra. }
  lra.
Qed.

(** The term of the player whose stack grows. *)
Lemma tau_hero (c ri rk rk' R0 : Q) :
  0 <= c -> 0 < ri -> 0 < rk' -> rk' <= rk -> 0 < R0 ->
  (ri / (((R0 + rk) + c * ri) * ((R0 + rk') + c * ri))) * ((rk - rk') / (c + 1))
  <= weightOf c (R0 + rk') ri * weightOf c (R0 + rk) rk - weightOf c (R0 + rk) ri * weightOf c (R0 + rk') rk'.
Proof.
  intros Hc Hi Hk' Hk H0. unfold weightOf.
  pose proof (hero_bound Hc Hi Hk' Hk H0) as Hb.
  assert (Hci : 0 <= c * ri) by (apply Qmult_le_0_compat; lra).
  assert (Hck : 0 <= c * rk) by (apply Qmult_le_0_compat; lra).
  assert (Hck' : 0 <= c * rk') by (apply Qmult_le_0_compat; lra).
  set (N := (c + 1) * (rk * (R0 + rk + c * ri) * (R0 + (c + 1) * rk')
                - rk' * (R0 + rk' + c * ri) * (R0 + (c + 1) * rk))
            - (rk - rk') * ((R0 + (c + 1) * rk) * (R0 + (c + 1) * rk'))) in *.
  assert (E : ri / (R0 + rk' + c * ri) * (rk / (R0 + rk + c * rk))
              - ri / (R0 + rk + c * ri) * (rk' / (R0 + rk' + c * rk'))
              - (ri / (((R0 + rk) + c * ri) * ((R0 + rk') + c * ri))) * ((rk - rk') / (c + 1))
              == (ri * N)
                 / ((c + 1) * ((R0 + rk + c * ri) * (R0 + rk' + c * ri)
                    * ((R0 + rk + c * rk) * (R0 + rk' + c * rk'))))).
  { unfold N. field. repeat split; lra. }
  assert (P : 0 <= (ri * N)
                 / ((c + 1) * ((R0 + rk + c * ri) * (R0 + rk' + c * ri)
                    * ((R0 + rk + c * rk) * (R0 + rk' + c * rk'))))).
  { apply Qdiv_nonneg.
    - apply Qmult_le_0_compat; [lra|]. unfold N. lra.
    - repeat apply Qmult_lt_0_compat; lra. }
  lra.
Qed.

Lemma replaceAt_length (k : nat) (x : Q) (stacks : list Q) :
  length (replaceAt k x stacks) = length stacks.
Proof.
  revert k; induction stacks as [|y t IH]; intros [|k]; simpl; auto.
Qed.

Lemma replaceAt_nth (k j : nat) (x : Q) (stacks : list Q) :
  (k < length stacks)%nat ->
  nth j (replaceAt k x stacks) 0 = if (j =? k)%nat then x else nth j stacks 0.
Proof.
  revert k j; induction stacks as [|y t IH]; intros k j Hk; simpl in Hk; [lia|].
  destruct k as [|k], j as [|j]; simpl; trivial.
  apply IH. lia.
Qed.

Lemma replaceAt_positive (k : nat) (x : Q) (stacks : list Q) :
  positive stacks -> 0 < x -> positive (replaceAt k x stacks).
Proof.
  unfold positive. intros Hpos Hx. revert k.
  induction Hpos as [|y t Hy Ht IH]; intros [|k]; simpl; constructor; auto.
Qed.

Lemma removeAt_nth (i j : nat) (stacks : list Q) :
  nth j (removeAt i stacks) 0 = nth (if (j <? i)%nat then j else S j) stacks 0.
Proof.
  revert i j; induction stacks as [|y t IH]; intros i j; simpl.
  - destruct (j <? i)%nat; destruct j; reflexivity.
  - destruct i as [|i]; [reflexivity|].
    destruct j as [|j]; [reflexivity|]. simpl. rewrite IH.
    change (S j <? S i)%nat with (j <? i)%nat.
    now destruct (j <? i)%nat.
Qed.

Lemma removeAt_replaceAt (i k : nat) (x : Q) (stacks : list Q) :
  i <> k ->
  removeAt i (replaceAt k x stacks)
  = replaceAt (if (i <? k)%nat then (k - 1)%nat else k) x (removeAt i stacks).
Proof.
  revert i k; induction stacks as [|y t IH]; intros i k Hik; simpl; [reflexivity|].
  destruct k as [|k], i as [|i]; simpl; try lia; trivial.
  - now rewrite Nat.sub_0_r.
  - rewrite IH by lia. change (S i <? S k)%nat with (i <? k)%nat.
    destruct (Nat.ltb_spec i k); [|reflexivity].
    rewrite Nat.sub_0_r. destruct k; [lia|]. simpl. now rewrite Nat.sub_0_r.
Qed.

Lemma bigsum_plus (n : nat) (f g : nat -> Q) :
  bigsum n (fun j => f j + g j) == bigsum n f + bigsum n g.
Proof. apply Qsum_map_plus. Qed.

Lemma bigsum_zero (n : nat) : bigsum n (fun _ => 0) == 0.
Proof. apply Qsum_map_zero. Qed.

Lemma bigsum_const (n : nat) (d : Q) :
  bigsum n (fun _ => d) == inject_Z (Z.of_nat n) * d.
Proof.
  unfold bigsum. induction n as [|n IH].
  - simpl. ring.
  - rewrite seq_S, map_app, Qsum_app, IH, Nat2Z.inj_succ. simpl.
    unfold Z.succ. rewrite inject_Z_plus. ring.
Qed.

Lemma bigsum_nonneg (n : nat) (f : nat -> Q) :
  (forall j, (j < n)%nat -> 0 <= f j) -> 0 <= bigsum n f.
Proof.
  intros Hf. rewrite <- (bigsum_zero n). now apply bigsum_le.
Qed.

Lemma bigsum_indicator (n k : nat) (v : Q) :
  (k < n)%nat -> bigsum n (fun j => if (j =? k)%nat then v else 0) == v.
Proof.
  intros Hk.
  rewrite <- (bigsum_except (fun j => if (j =? k)%nat then v else 0) Hk).
  rewrite Nat.eqb_refl.
  rewrite (@bigsum_ext _ _ (fun _ => 0)), bigsum_zero; [ring|].
  intros j _. now destruct (j =? k)%nat.
Qed.

(** A sum with two marked terms. *)
Lemma bigsum_marked (n i k : nat) (a b d : Q) :
  i <> k -> (i < n)%nat -> (k < n)%nat ->
  bigsum n (fun j => if (j =? k)%nat then a
                     else if (j =? i)%nat then b else d)
  == a + b + (inject_Z (Z.of_nat n) - 2) * d.
Proof.
  intros Hik Hi Hk.
  rewrite (@bigsum_ext _ _ (fun j =>
    d + ((if (j =? k)%nat then a - d else 0)
         + (if (j =? i)%nat then b - d else 0)))).
  - rewrite !bigsum_plus, bigsum_const, !bigsum_indicator by assumption. ring.
  - intros j _. destruct (Nat.eqb_spec j k), (Nat.eqb_spec j i); try lia; ring.
Qed.

(** Two terms of a sum of terms that are not negative. *)
Lemma bigsum_two_le (n i j : nat) (h : nat -> Q) :
  i <> j -> (i < n)%nat -> (j < n)%nat ->
  (forall l, (l < n)%nat -> 0 <= h l) ->
  h i + h j <= bigsum n h.
Proof.
  intros Hij Hi Hj Hh.
  rewrite <- (bigsum_except h Hi).
  rewrite <- (bigsum_except (fun l => if (l =? i)%nat then 0 else h l) Hj).
  destruct (Nat.eqb_spec j i); [lia|].
  assert (0 <= bigsum n (fun l => if (l =? j)%nat then 0
                                  else if (l =? i)%nat then 0 else h l)).
  { apply bigsum_nonneg. intros l Hl.
    destruct (l =? j)%nat; [apply Qle_refl|].
    destruct (l =? i)%nat; [apply Qle_refl|]. now apply Hh. }
  lra.
Qed.

Lemma recip_replaceAt (k j : nat) (x : Q) (stacks : list Q) :
  (k < length stacks)%nat ->
  recip (replaceAt k x stacks) j
  = if (j =? k)%nat then 1 / x else recip stacks j.
Proof.
  intros Hk. unfold recip. rewrite replaceAt_nth by assumption.
  now destruct (j =? k)%nat.
Qed.

Lemma reciprocalsOfOthers_replaceAt (k : nat) (x : Q) (stacks : list Q) :
  (k < length stacks)%nat ->
  Spec.reciprocalsOfOthers (replaceAt k x stacks) k
  == Spec.reciprocalsOfOthers stacks k.
Proof.
  intros Hk. unfold Spec.reciprocalsOfOthers. rewrite replaceAt_length.
  apply bigsum_ext. intros j _. rewrite replaceAt_nth by assumption.
  now destruct (j =? k)%nat.
Qed.

Lemma Qdiv_le_cross (a b c d : Q) :
  0 < b -> 0 < d -> a * d <= c * b -> a / b <= c / d.
Proof.
  intros Hb Hd H.
  apply Qle_shift_div_l; [assumption|].
  setoid_replace (a / b * d) with (a * d / b) by (field; lra).
  apply Qle_shift_div_r; assumption.
Qed.

(** With four players or fewer, a larger stack of one player does not lower
    the elimination probability of another. *)
Lemma elimination_monotone (stacks : list Q) (k i : nat) (x : Q) :
  positive stacks -> (2 <= length stacks <= 4)%nat ->
  (k < length stacks)%nat -> (i < length stacks)%nat -> i <> k ->
  nth k stacks 0 <= x ->
  nth i (calculateEliminationProbabilities stacks) 0
  <= nth i (calculateEliminationProbabilities (replaceAt k x stacks)) 0.
Proof.
  intros Hpos [Hn2 Hn4] Hk Hi Hik Hx.
  pose proof (positive_nth Hpos Hk) as Hsk.
  assert (Hx0 : 0 < x) by lra.
  pose proof (replaceAt_positive k Hpos Hx0) as Hpos'.
  pose proof (replaceAt_length k x stacks) as Hlen'.
  rewrite !elimination_closed by (trivial || rewrite Hlen'; trivial).
  rewrite Hlen'.
  set (n := length stacks) in *.
  set (stacks' := replaceAt k x stacks) in *.
  assert (HG : 0 < bigsum n (weight stacks)).
  { apply bigsum_positive; [lia|]. intros; now apply weight_positive. }
  assert (HG' : 0 < bigsum n (weight stacks')).
  { apply bigsum_positive; [lia|]. intros; apply weight_positive; trivial;
      rewrite Hlen'; trivial. }
  apply Qdiv_le_cross; trivial.
  (* the terms of the difference *)
  assert (ED : weight stacks' i * bigsum n (weight stacks)
               - weight stacks i * bigsum n (weight stacks')
               == bigsum n (fun j => weight stacks' i * weight stacks j
                                     + - weight stacks i * weight stacks' j)).
  { rewrite bigsum_plus, !bigsum_scale. ring. }
  (* the quantities of the two configurations *)
  pose proof (fieldSize_nonneg stacks Hn2) as Hc.
  assert (Ec : fieldSize stacks' = fieldSize stacks).
  { unfold fieldSize. now rewrite Hlen'. }
  assert (Hc2 : fieldSize stacks <= 2).
  { unfold fieldSize. fold n.
    assert (inject_Z (Z.of_nat n) <= inject_Z 4) by (rewrite <- Zle_Qle; lia).
    change (inject_Z 4) with 4 in *. lra. }
  set (c := fieldSize stacks) in *.
  set (R0 := Spec.reciprocalsOfOthers stacks k).
  set (rk := recip stacks k).
  set (rk' := 1 / x).
  set (ri := recip stacks i).
  assert (ER : recipTotal stacks == R0 + rk) by (symmetry; now apply recipTotal_others).
  assert (ER' : recipTotal stacks' == R0 + rk').
  { rewrite <- (@recipTotal_others stacks' k) by (rewrite Hlen'; trivial).
    unfold stacks'. rewrite reciprocalsOfOthers_replaceAt by assumption.
    rewrite recip_replaceAt, Nat.eqb_refl by assumption. reflexivity. }
  assert (Hrk' : 0 < rk') by (apply Qdiv_pos; [reflexivity|assumption]).
  assert (Hrk : rk' <= rk).
  { unfold rk', rk, recip. apply Qdiv_le_cross; trivial. lra. }
  assert (Hri : 0 < ri) by now apply recip_positive.
  assert (Hh : forall l, (l < n)%nat ->
             0 <= (if (l =? k)%nat then 0 else recip stacks l)).
  { intros l Hl. destruct (l =? k)%nat; [apply Qle_refl|].
    apply Qlt_le_weak. now apply recip_positive. }
  assert (HR0 : 0 < R0).
  { now apply reciprocalsOfOthers_positive. }
  assert (Ew : forall j, (j < n)%nat ->
             weight stacks j == weightOf c (R0 + rk) (recip stacks j)).
  { intros j _. unfold weight. fold c. unfold weightOf. now rewrite ER. }
  assert (Ew' : forall j, (j < n)%nat ->
             weight stacks' j
             == weightOf c (R0 + rk') (if (j =? k)%nat then rk' else recip stacks j)).
  { intros j _. unfold weight. rewrite Ec. unfold weightOf. rewrite ER'.
    unfold stacks'. rewrite recip_replaceAt by assumption.
    now destruct (j =? k)%nat. }
  set (K := ri / ((R0 + rk + c * ri) * (R0 + rk' + c * ri))).
  assert (HK : 0 <= K).
  { unfold K. assert (0 <= c * ri) by (apply Qmult_le_0_compat; lra).
    apply Qdiv_nonneg; [lra|]. apply Qmult_lt_0_compat; lra. }
  (* a lower bound of each term *)
  assert (Hlb : forall j, (j < n)%nat ->
            (if (j =? k)%nat then K * ((rk - rk') / (c + 1))
             else if (j =? i)%nat then 0
                  else - K * (c * (rk - rk') / (4 * (c + 2))))
            <= weight stacks' i * weight stacks j
               + - weight stacks i * weight stacks' j).
  { intros j Hj. rewrite !Ew, !Ew' by assumption.
    destruct (Nat.eqb_spec i k) as [|_]; [lia|].
    destruct (Nat.eqb_spec j k) as [->|Hjk].
    - pose proof (tau_hero Hc Hri Hrk' Hrk HR0) as T. fold ri rk. fold K in T. lra.
    - destruct (Nat.eqb_spec j i) as [->|Hji].
      + fold ri. lra.
      + assert (Hrj : 0 < recip stacks j) by now apply recip_positive.
        assert (Hsum : ri + recip stacks j <= R0).
        { pose proof (@bigsum_two_le n i j
            (fun l => if (l =? k)%nat then 0 else recip stacks l)) as B.
          cbv beta in B. destruct (Nat.eqb_spec i k); [lia|].
          destruct (Nat.eqb_spec j k); [lia|].
          apply B; auto. }
        assert (H1 : ri + recip stacks j <= R0 + rk') by lra.
        assert (H2 : R0 + rk' <= R0 + rk) by lra.
        pose proof (tau_other Hc Hri Hrj H1 H2) as T.
        fold ri. fold K in T.
        setoid_replace (R0 + rk - (R0 + rk')) with (rk - rk') in T by ring.
        lra. }
  (* the lower bounds add up to a number that is not negative *)
  assert (Hsum : 0 <= bigsum n (fun j =>
            if (j =? k)%nat then K * ((rk - rk') / (c + 1))
            else if (j =? i)%nat then 0
                 else - K * (c * (rk - rk') / (4 * (c + 2))))).
  { rewrite bigsum_marked by assumption. fold n.
    change (inject_Z (Z.of_nat n) - 2) with c.
    assert (E : K * ((rk - rk') / (c + 1)) + 0
                + c * (- K * (c * (rk - rk') / (4 * (c + 2))))
                == K * ((rk - rk') * ((4 * (c + 2) - c * c * (c + 1))
                                      / (4 * (c + 1) * (c + 2))))).
    { field. split; lra. }
    rewrite E. apply Qmult_le_0_compat; [assumption|].
    apply Qmult_le_0_compat; [lra|]. apply Qdiv_nonneg.
    - assert (c * c <= 4).
      { setoid_replace 4 with (2 * 2) by ring.
        apply Qmult_le_compat_nonneg; split; lra. }
      assert (c * c * (c + 1) <= 4 * (c + 1)).
      { apply Qmult_le_compat_r; lra. }
      lra.
    - repeat apply Qmult_lt_0_compat; lra. }
  pose proof (bigsum_le _ _ Hlb) as Hle.
  lra.
Qed.

End LargerStack.

(** ** Exact arithmetic: a larger stack and the equity *)

Section Monotone.

Open Scope Q_scope.

Lemma nonincreasing_firstn (payouts : list Q) (j : nat) :
  nonincreasing payouts -> nonincreasing (firstn j payouts).
Proof.
  intros Hp l Hl. rewrite length_firstn in Hl. rewrite !nth_firstn.
  destruct (Nat.ltb_spec (S l) j); [|lia].
  destruct (Nat.ltb_spec l j); [|lia].
  apply Hp. lia.
Qed.

Lemma nonnegative_nth (payouts : list Q) (j : nat) :
  nonnegative payouts -> 0 <= nth j payouts 0.
Proof.
  intros Hp. destruct (Nat.ltb_spec j (length payouts)) as [Hj|Hj].
  - unfold nonnegative in Hp. rewrite Forall_forall in Hp.
    apply Hp. now apply nth_In.
  - rewrite nth_overflow by assumption. apply Qle_refl.
Qed.

(** Heads-up, in the money. *)
Lemma inMoneyV_heads_up (s0 s1 p0 p1 : Q) (rest : list Q) (k : nat) :
  inMoneyV [s0; s1] (p0 :: p1 :: rest) k
  == nth k [s0; s1] 0 / (s0 + s1) * p0
     + (1 - nth k [s0; s1] 0 / (s0 + s1)) * p1.
Proof.
  unfold inMoneyV, calculateInMoneyEquity. simpl.
  rewrite get_of_nat. unfold get. simpl. rewrite orZero_exact. reflexivity.
Qed.

(** In the money, a player gets the lowest payout in play or more. *)
Lemma inMoney_lower (n : nat) :
  forall (stacks payouts : list Q) (k : nat),
    length stacks = n -> (2 <= n)%nat -> (n <= length payouts)%nat ->
    positive stacks -> nonincreasing payouts -> (k < n)%nat ->
    nth (n - 1) payouts 0 <= inMoneyV stacks payouts k.
Proof.
  induction n as [|n IH]; intros stacks payouts k Hlen Hn Hm Hpos Hdec Hk; [lia|].
  replace (S n - 1)%nat with n by lia.
  destruct (Nat.eq_dec n 1) as [->|Hn1].
  - destruct stacks as [|s0 [|s1 [|? ?]]]; try discriminate.
    destruct payouts as [|p0 [|p1 rest]]; simpl in Hm; try lia.
    rewrite inMoneyV_heads_up.
    pose proof (Hdec 0%nat) as H10. simpl in H10. specialize (H10 ltac:(lia)).
    inversion Hpos as [|? ? H0 Hpos']; subst.
    inversion Hpos' as [|? ? H1 _]; subst.
    assert (Hw : 0 <= nth k [s0; s1] 0 / (s0 + s1)).
    { apply Qdiv_nonneg; [|lra]. destruct k as [|[|[|k]]]; simpl; lra. }
    simpl nth at 1.
    set (wk := nth k [s0; s1] 0 / (s0 + s1)) in *.
    assert (0 <= wk * (p0 - p1)) by (apply Qmult_le_0_compat; lra).
    lra.
  - rewrite inMoneyV_eq by lia. rewrite Hlen.
    replace (S n - 1)%nat with n by lia.
    set (L := nth n payouts 0).
    rewrite <- (Qmult_1_r L) at 1.
    rewrite <- (@elimination_total stacks) by (trivial || lia).
    rewrite Hlen, <- bigsum_scale.
    apply bigsum_le. intros i Hi.
    rewrite Qmult_comm. apply Qmult_le_l.
    { apply elimination_positive; trivial; lia. }
    destruct (Nat.eqb_spec i k) as [|Hik]; [apply Qle_refl|].
    apply Qle_trans with (nth (n - 1) (firstn n payouts) 0).
    + rewrite nth_firstn. destruct (Nat.ltb_spec (n - 1) n); [|lia].
      unfold L. replace n with (S (n - 1)) at 1 by lia. apply Hdec. lia.
    + apply IH.
      * rewrite removeAt_length by lia. lia.
      * lia.
      * rewrite length_firstn. lia.
      * now apply removeAt_positive.
      * now apply nonincreasing_firstn.
      * destruct (Nat.ltb_spec i k); lia.
Qed.

(** A weighted mean, written around a level [L]. *)
Lemma bigsum_recenter (n : nat) (E X : nat -> Q) (L : Q) :
  bigsum n E == 1 ->
  bigsum n (fun i => E i * X i) == L + bigsum n (fun i => E i * (X i - L)).
Proof.
  intros HE.
  rewrite (@bigsum_ext _ _ (fun i => L * E i + E i * (X i - L)))
    by (intros; ring).
  rewrite bigsum_plus, bigsum_scale, HE. ring.
Qed.

Lemma share_monotone (s o x : Q) :
  0 < s -> 0 < o -> s <= x -> s / (s + o) <= x / (x + o).
Proof.
  intros Hs Ho Hx. apply Qdiv_le_cross; try lra.
  assert (s * o <= x * o) by (apply Qmult_le_compat_r; lra).
  lra.
Qed.

(** In the money, with four players or fewer and payouts that do not go up
    with the place, a larger stack does not lower the equity. *)
Lemma inMoney_mono (n : nat) :
  forall (stacks payouts : list Q) (k : nat) (x : Q),
    length stacks = n -> (2 <= n <= 4)%nat -> (n <= length payouts)%nat ->
    positive stacks -> nonincreasing payouts -> (k < n)%nat ->
    nth k stacks 0 <= x ->
    inMoneyV stacks payouts k <= inMoneyV (replaceAt k x stacks) payouts k.
Proof.
  induction n as [|n IH];
    intros stacks payouts k x Hlen [Hn2 Hn4] Hm Hpos Hdec Hk Hx; [lia|].
  destruct (Nat.eq_dec n 1) as [->|Hn1].
  - destruct stacks as [|s0 [|s1 [|? ?]]]; try discriminate.
    destruct payouts as [|p0 [|p1 rest]]; simpl in Hm; try lia.
    pose proof (Hdec 0%nat) as H10. simpl in H10. specialize (H10 ltac:(lia)).
    inversion Hpos as [|? ? H0 Hpos']; subst.
    inversion Hpos' as [|? ? H1 _]; subst.
    destruct k as [|[|k]]; [| |lia]; simpl replaceAt;
      rewrite !inMoneyV_heads_up; simpl nth; simpl in Hx.
    + pose proof (share_monotone H0 H1 Hx) as Hw.
      assert (0 <= (x / (x + s1) - s0 / (s0 + s1)) * (p0 - p1))
        by (apply Qmult_le_0_compat; lra).
      lra.
    + pose proof (share_monotone H1 H0 Hx) as Hw.
      setoid_replace (s0 + s1) with (s1 + s0) by ring.
      setoid_replace (s0 + x) with (x + s0) by ring.
      assert (0 <= (x / (x + s0) - s1 / (s1 + s0)) * (p0 - p1))
        by (apply Qmult_le_0_compat; lra).
      lra.
  - assert (Hnth : 0 < nth k stacks 0) by (apply positive_nth; trivial; lia).
    assert (Hx0 : 0 < x) by lra.
    pose proof (replaceAt_positive k Hpos Hx0) as Hpos'.
    pose proof (replaceAt_length k x stacks) as Hlen'.
    rewrite !inMoneyV_eq by (rewrite ?Hlen'; lia).
    rewrite Hlen', Hlen. replace (S n - 1)%nat with n by lia.
    set (L := nth n payouts 0).
    rewrite (@bigsum_recenter (S n)
               (fun i => nth i (calculateEliminationProbabilities stacks) 0) _ L)
      by (rewrite <- Hlen; apply elimination_total; trivial; lia).
    rewrite (@bigsum_recenter (S n)
               (fun i => nth i (calculateEliminationProbabilities
                                  (replaceAt k x stacks)) 0) _ L)
      by (rewrite <- Hlen, <- Hlen'; apply elimination_total; trivial;
          rewrite Hlen'; lia).
    apply Qplus_le_r. apply bigsum_le. intros i Hi.
    destruct (Nat.eqb_spec i k) as [|Hik].
    { setoid_replace (L - L) with 0 by ring. rewrite !Qmult_0_r. apply Qle_refl. }
    rewrite removeAt_replaceAt by assumption.
    set (k' := if (i <? k)%nat then (k - 1)%nat else k).
    assert (Hk' : (k' < n)%nat) by (unfold k'; destruct (Nat.ltb_spec i k); lia).
    assert (Hnk' : nth k' (removeAt i stacks) 0 = nth k stacks 0).
    { rewrite removeAt_nth. unfold k'.
      destruct (Nat.ltb_spec i k).
      - destruct (Nat.ltb_spec (k - 1) i); [lia|]. f_equal. lia.
      - destruct (Nat.ltb_spec k i); [reflexivity|lia]. }
    assert (HL : L <= inMoneyV (removeAt i stacks) (firstn n payouts) k').
    { apply Qle_trans with (nth (n - 1) (firstn n payouts) 0).
      - rewrite nth_firstn. destruct (Nat.ltb_spec (n - 1) n); [|lia].
        unfold L. replace n with (S (n - 1)) at 1 by lia. apply Hdec. lia.
      - apply inMoney_lower; trivial.
        + rewrite removeAt_length by lia. lia.
        + lia.
        + rewrite length_firstn. lia.
        + now apply removeAt_positive.
        + now apply nonincreasing_firstn. }
    assert (HW : inMoneyV (removeAt i stacks) (firstn n payouts) k'
                 <= inMoneyV (replaceAt k' x (removeAt i stacks))
                             (firstn n payouts) k').
    { apply IH; trivial.
      - rewrite removeAt_length by lia. lia.
      - lia.
      - rewrite length_firstn. lia.
      - now apply removeAt_positive.
      - now apply nonincreasing_firstn.
      - now rewrite Hnk'. }
    apply Qmult_le_compat_nonneg; split.
    + apply Qlt_le_weak. apply elimination_positive; trivial; lia.
    + apply elimination_monotone; trivial; lia.
    + lra.
    + lra.
Qed.

(** With payouts that are not negative and do not go up with the place, no
    equity is negative. *)
Lemma equity_nonneg (n : nat) :
  forall (stacks payouts : list Q) (k : nat),
    length stacks = n -> (1 <= n)%nat -> positive stacks ->
    nonincreasing payouts -> nonnegative payouts -> (k < n)%nat ->
    0 <= equityV stacks payouts k.
Proof.
  induction n as [|n IH]; intros stacks payouts k Hlen Hn Hpos Hdec Hnn Hk; [lia|].
  destruct (Nat.eq_dec n 0) as [->|Hn0].
  { rewrite equityV_single by assumption. now apply nonnegative_nth. }
  destruct (Nat.leb_spec (S n) (length payouts)) as [Hm|Hm].
  { rewrite equityV_inMoney by lia.
    apply Qle_trans with (nth (S n - 1) payouts 0).
    - now apply nonnegative_nth.
    - apply inMoney_lower; trivial; lia. }
  rewrite equityV_eq by lia. apply bigsum_nonneg. intros i Hi.
  destruct (Nat.eqb_spec i k) as [|Hik]; [apply Qle_refl|].
  destruct (0 <? length payouts)%nat; [|apply Qle_refl].
  apply Qmult_le_0_compat.
  - apply Qlt_le_weak. apply elimination_positive; trivial; lia.
  - apply IH; trivial.
    + rewrite removeAt_length by lia. lia.
    + lia.
    + now apply removeAt_positive.
    + destruct (Nat.ltb_spec i k); lia.
Qed.

(** With four players or fewer and payouts that are not negative and do not
    go up with the place, a larger stack does not lower the equity. *)
Lemma equity_mono (n : nat) :
  forall (stacks payouts : list Q) (k : nat) (x : Q),
    length stacks = n -> (1 <= n <= 4)%nat -> positive stacks ->
    nonincreasing payouts -> nonnegative payouts -> (k < n)%nat ->
    nth k stacks 0 <= x ->
    equityV stacks payouts k <= equityV (replaceAt k x stacks) payouts k.
Proof.
  induction n as [|n IH];
    intros stacks payouts k x Hlen [Hn1 Hn4] Hpos Hdec Hnn Hk Hx; [lia|].
  pose proof (replaceAt_length k x stacks) as Hlen'.
  destruct (Nat.eq_dec n 0) as [->|Hn0].
  { rewrite !equityV_single by (rewrite ?Hlen'; assumption). apply Qle_refl. }
  destruct (Nat.leb_spec (S n) (length payouts)) as [Hm|Hm].
  { rewrite !equityV_inMoney by (rewrite ?Hlen'; lia).
    apply inMoney_mono with (n := S n); trivial; lia. }
  assert (Hnth : 0 < nth k stacks 0) by (apply positive_nth; trivial; lia).
  assert (Hx0 : 0 < x) by lra.
  pose proof (replaceAt_positive k Hpos Hx0) as Hpos'.
  rewrite !equityV_eq by (rewrite ?Hlen'; lia).
  rewrite Hlen'. apply bigsum_le. intros i Hi. rewrite Hlen in Hi.
  destruct (Nat.eqb_spec i k) as [|Hik]; [apply Qle_refl|].
  destruct (0 <? length payouts)%nat; [|apply Qle_refl].
  rewrite removeAt_replaceAt by assumption.
  set (k' := if (i <? k)%nat then (k - 1)%nat else k).
  assert (Hk' : (k' < n)%nat) by (unfold k'; destruct (Nat.ltb_spec i k); lia).
  assert (Hnk' : nth k' (removeAt i stacks) 0 = nth k stacks 0).
  { rewrite removeAt_nth. unfold k'.
    destruct (Nat.ltb_spec i k).
    - destruct (Nat.ltb_spec (k - 1) i); [lia|]. f_equal. lia.
    - destruct (Nat.ltb_spec k i); [reflexivity|lia]. }
  apply Qmult_le_compat_nonneg; split.
  - apply Qlt_le_weak. apply elimination_positive; trivial; lia.
  - apply elimination_monotone; trivial; lia.
  - apply equity_nonneg with (n := n); trivial.
    + rewrite removeAt_length by lia. lia.
    + lia.
    + now apply removeAt_positive.
  - apply IH; trivial.
    + rewrite removeAt_length by lia. lia.
    + lia.
    + now apply removeAt_positive.
    + now rewrite Hnk'.
Qed.

End Monotone.

(** ** The properties of the specification *)

Section Claims.

Open Scope Q_scope.








(** C8, as amended.  Heads-up with two payouts or more, in exact arithmetic: the equity
    of a player is the share of the chips times the first payout plus the
    share of the opponent times the second; on binary64 the stacks 3000 and
    1000 with the payouts 600 and 400 give exactly 550 to the first
    player. *)
Theorem heads_up_closed_form (s0 s1 p0 p1 : Q) (rest : list Q) :
  0 < s0 -> 0 < s1 ->
  (exists v, calculatePlayerEquity [s0; s1] (p0 :: p1 :: rest) 0 = Some v
             /\ v == s0 / (s0 + s1) * p0 + s1 / (s0 + s1) * p1)
  /\ (exists v, calculatePlayerEquity [s0; s1] (p0 :: p1 :: rest) 1 = Some v
                /\ v == s1 / (s0 + s1) * p0 + s0 / (s0 + s1) * p1)
  /\ calculatePlayerEquity [3000; 1000]%float [600; 400]%float 0
     = Some 550%float.
Proof.
  intros H0 H1. split; [|split].
  - eexists. split; [reflexivity|]. exact_ops. unfold get. simpl.
    rewrite orZero_exact. field. lra.
  - eexists. split; [reflexivity|]. exact_ops. unfold get. simpl.
    rewrite orZero_exact. field. lra.
  - vm_compute. reflexivity.
Qed.

Lemma heads_up_closed_form_witness :
  0 < 3000 /\ 0 < 1000 /\
  exists v, calculatePlayerEquity [3000; 1000] [600; 400] 0 = Some v
            /\ v == 3000 / (3000 + 1000) * 600 + 1000 / (3000 + 1000) * 400.
Proof.
  assert (H0 : 0 < 3000) by reflexivity.
  assert (H1 : 0 < 1000) by reflexivity.
  split; [exact H0|]. split; [exact H1|].
  exact (proj1 (@heads_up_closed_form 3000 1000 600 400 [] H0 H1)).
Defined.

(** C8, as stated for every two positive stacks, fails on binary64.  With
    the stacks 1000 and 2000 and the payouts 600 and 400 the code returns
    466.66666666666669, and the formula of the claim evaluated on binary64
    is 466.66666666666663.  With two stacks of 2^1023 chips the sum of the
    stacks overflows and the code returns 400, where the formula is worth
    500. *)
Lemma heads_up_formula_is_rounded :
  (exists v : float,
      calculatePlayerEquity [1000; 2000]%float [600; 400]%float 0 = Some v
      /\ PrimFloat.ltb (1000 / (1000 + 2000) * 600
                        + 2000 / (1000 + 2000) * 400)%float v = true)
  /\ PrimFloat.ltb 0 0x1p+1023 = true
  /\ calculatePlayerEquity [0x1p+1023; 0x1p+1023]%float [600; 400]%float 0
     = Some 400%float
  /\ inject_Z (2 ^ 1023) / (inject_Z (2 ^ 1023) + inject_Z (2 ^ 1023)) * 600
     + inject_Z (2 ^ 1023) / (inject_Z (2 ^ 1023) + inject_Z (2 ^ 1023)) * 400
     == 500.
Proof.
  split; [|split; [|split]].
  - eexists. split; vm_compute; reflexivity.
  - vm_compute. reflexivity.
  - vm_compute. reflexivity.
  - set (s := inject_Z (2 ^ 1023)).
    assert (0 < s) by (unfold s; change 0 with (inject_Z 0);
                       rewrite <- Zlt_Qlt; reflexivity).
    field. lra.
Qed.

(** C10, as amended.  [callingRange] is never read: on binary64 as in
    exact arithmetic the result does not depend on it.  In exact arithmetic
    the terms in the effective stack cancel: [pushEV] is
    [(blinds + antes) * (foldEquity + 0.5 * (1 - foldEquity))], whatever the
    two stacks are. *)
Theorem pushEV_independent_of_stacks
    (heroStack villainStack blinds antes callingRange foldEquity : Q) :
  pushEV (calculatePushFoldEquity heroStack villainStack blinds antes
                                  callingRange foldEquity)
  == (blinds + antes) * (foldEquity + (1 # 2) * (1 - foldEquity))
  /\ (forall heroStack' villainStack' callingRange' : Q,
         pushEV (calculatePushFoldEquity heroStack villainStack blinds antes
                                         callingRange foldEquity)
         == pushEV (calculatePushFoldEquity heroStack' villainStack' blinds antes
                                            callingRange' foldEquity))
  /\ (forall hero villain pot0 pot1 range range' fold : float,
         calculatePushFoldEquity hero villain pot0 pot1 range fold
         = calculatePushFoldEquity hero villain pot0 pot1 range' fold).
Proof.
  unfold calculatePushFoldEquity. exact_ops. simpl.
  split; [ring|]. split; [intros; ring|]. reflexivity.
Qed.

(** C10, as stated for every input, fails on binary64, where [pushEV]
    depends on the stacks.  With the blinds 3, no antes and the fold equity
    0.7, the stacks 10 and 20 give the value of the formula on binary64,
    2.55, and the stacks 10^17 and 3 * 10^17 give 2.0999999999999996, which
    is below 2.5. *)
Lemma pushEV_depends_on_stacks_on_binary64 :
  pushEV (calculatePushFoldEquity 10 20 3 0 (3 / 10) (7 / 10))%float
  = ((3 + 0) * (7 / 10 + 0.5 * (1 - 7 / 10)))%float
  /\ PrimFloat.ltb
       (pushEV (calculatePushFoldEquity 1e17 3e17 3 0 (3 / 10) (7 / 10))%float)
       (5 / 2)%float = true
  /\ PrimFloat.ltb
       (5 / 2)%float
       (pushEV (calculatePushFoldEquity 10 20 3 0 (3 / 10) (7 / 10))%float)
     = true
  /\ 5 / 2 < (3 + 0) * ((7 # 10) + (1 # 2) * (1 - (7 # 10))).
Proof.
  repeat split; vm_compute; reflexivity.
Qed.

End Claims.

Section ClaimsAtEveryInstance.

Context {A : Type} `{Number A}.

(** C6.  Every call of [calculatePlayerEquity] and of
    [calculateInMoneyEquity] returns: a recursive call is on the stacks with
    one entry removed, a list one shorter, so a depth budget of
    [stacks.length] is never used up, and a larger budget gives the same
    result. *)
Theorem equity_recursion_terminates (stacks payouts : list A) (playerIndex : Z) :
  (forall i, (i < length stacks)%nat ->
             length (removeAt i stacks) = (length stacks - 1)%nat)
  /\ (exists v, calculatePlayerEquity_fuel (length stacks) stacks payouts playerIndex
                = Some v)
  /\ (exists v, calculateInMoneyEquity_fuel (length stacks) stacks payouts playerIndex
                = Some v)
  /\ (forall fuel, (length stacks <= fuel)%nat ->
        calculatePlayerEquity_fuel fuel stacks payouts playerIndex
        = calculatePlayerEquity_fuel (length stacks) stacks payouts playerIndex
        /\ calculateInMoneyEquity_fuel fuel stacks payouts playerIndex
           = calculateInMoneyEquity_fuel (length stacks) stacks payouts playerIndex).
Proof.
  split; [intros i Hi; now apply removeAt_length|].
  split; [apply playerEquity_fuel_returns, le_n|].
  split; [apply inMoney_fuel_returns, le_n|].
  intros fuel Hfuel. split.
  - now apply playerEquity_fuel_enough.
  - now apply inMoney_fuel_enough.
Qed.

(** C7.  [calculateICM] throws the invalid-input error exactly when
    [stacks] or [payouts] is empty; otherwise it returns a result whose
    [equity] is the player's equity, with [dollarEV = equity],
    [riskPremium = chipEV - dollarEV] and
    [chipEV = (stacks[playerIndex] / totalChips) * sum(payouts)]. *)
Theorem calculateICM_spec (stacks payouts : list A) (playerIndex : Z) :
  (forall msg, calculateICM stacks payouts playerIndex = Throws msg
               <-> (msg = invalidInput /\ (stacks = [] \/ payouts = [])))
  /\ (stacks <> [] -> payouts <> [] ->
      exists r,
        calculateICM stacks payouts playerIndex = Returns r
        /\ calculatePlayerEquity stacks payouts playerIndex = Some (equity r)
        /\ dollarEV r = equity r
        /\ riskPremium r = sub (chipEV r) (dollarEV r)
        /\ chipEV r = mul (div (get stacks playerIndex) (sum stacks)) (sum payouts)).
Proof.
  unfold calculateICM.
  destruct (calculatePlayerEquity_returns stacks payouts playerIndex) as [e He].
  rewrite He. split.
  - intros msg. destruct stacks, payouts; simpl; split;
      try (intros [-> [?|?]]; congruence);
      try (intros E; inversion E; auto);
      try discriminate.
  - intros Hs Hp. destruct stacks; [congruence|].
    destruct payouts; [congruence|]. simpl.
    eexists. split; [reflexivity|]. simpl. auto.
Qed.

End ClaimsAtEveryInstance.

Lemma equity_recursion_terminates_witness :
  (1 < 3)%nat /\ length (removeAt 1 [2000; 1500; 500]%float) = 2%nat.
Proof.
  assert (Hi : (1 < length [2000; 1500; 500]%float)%nat) by (simpl; lia).
  split; [exact Hi|].
  exact (proj1 (equity_recursion_terminates [2000; 1500; 500]%float
                  [5000; 3000]%float 0) 1%nat Hi).
Defined.

Lemma calculateICM_spec_witness :
  [1000]%float <> [] /\ [1000]%float <> [] /\
  exists r,
    calculateICM [1000]%float [1000]%float 0 = Returns r
    /\ calculatePlayerEquity [1000]%float [1000]%float 0 = Some (equity r)
    /\ dollarEV r = equity r
    /\ riskPremium r = sub (chipEV r) (dollarEV r)
    /\ chipEV r = mul (div (get [1000]%float 0) (sum [1000]%float)) (sum [1000]%float).
Proof.
  assert (Hs : [1000]%float <> []) by discriminate.
  split; [exact Hs|]. split; [exact Hs|].
  exact (proj2 (calculateICM_spec [1000]%float [1000]%float 0) Hs Hs).
Defined.

(** C9.  On binary64, the numbers the program runs on, and in exact
    arithmetic: [foldEV] is 0 and [pushEV] is
    [foldEquity * pot + (1 - foldEquity) * (0.5 * (pot + effectiveStack) -
    0.5 * effectiveStack)], with [pot = blinds + antes] and
    [effectiveStack = Math.min(heroStack, villainStack)]. *)
Theorem pushFold_spec :
  (forall heroStack villainStack blinds antes callingRange foldEquity : float,
     let pot := (blinds + antes)%float in
     let effectiveStack := Float64.min heroStack villainStack in
     let r := calculatePushFoldEquity heroStack villainStack blinds antes
                                      callingRange foldEquity in
     foldEV r = 0%float
     /\ pushEV r = (foldEquity * pot
                    + (1 - foldEquity)
                      * (0.5 * (pot + effectiveStack) - 0.5 * effectiveStack))%float)
  /\ (forall heroStack villainStack blinds antes callingRange foldEquity : Q,
       let pot := (blinds + antes)%Q in
       let effectiveStack := Qmin heroStack villainStack in
       let r := calculatePushFoldEquity heroStack villainStack blinds antes
                                        callingRange foldEquity in
       foldEV r = 0%Q
       /\ pushEV r = (foldEquity * pot
                      + (1 - foldEquity)
                        * ((1 # 2) * (pot + effectiveStack)
                           - (1 # 2) * effectiveStack))%Q).
Proof.
  split; intros; split; reflexivity.
Qed.

(** C5.  On binary64, with the stacks 1000, 0 and 500 and the payouts 1000
    and 600, [calculateICM] returns for each of the three players, and no
    field of the result is NaN: the zero stack makes a sum of reciprocals
    infinite and a harmonic mean 0, not NaN. *)
Theorem zero_stack_no_NaN :
  Forall (fun playerIndex =>
            exists r,
              calculateICM [1000; 0; 500]%float [1000; 600]%float playerIndex
              = Returns r
              /\ PrimFloat.is_nan (equity r) = false
              /\ PrimFloat.is_nan (chipEV r) = false
              /\ PrimFloat.is_nan (dollarEV r) = false
              /\ PrimFloat.is_nan (riskPremium r) = false)
         [0; 1; 2]%Z.
Proof.
  repeat constructor;
    (eexists; split; [vm_compute; reflexivity|]);
    repeat split; vm_compute; reflexivity.
Qed.

(** C2.  [calculateBubbleFactor] returns [chipEquity / icmEquity] when
    [icmEquity > 0] and 1 otherwise; with the stacks 4000, 500 and 500 and
    the payouts 6000 and 4000 the bubble factor of the chip leader is
    313/208, about 1.5048 on binary64: above 1, where the unit test of the
    repository expects it below 1. *)
Theorem bubble_factor_chip_leader :
  (forall (stacks payouts : list float) (playerIndex : Z),
     exists icmEquity,
       calculatePlayerEquity stacks payouts playerIndex = Some icmEquity
       /\ calculateBubbleFactor stacks payouts playerIndex
          = Some (if PrimFloat.ltb 0 icmEquity
                  then ((get stacks playerIndex / sum stacks) * sum payouts
                        / icmEquity)%float
                  else 1%float))
  /\ (exists b : float,
        calculateBubbleFactor [4000; 500; 500]%float [6000; 4000]%float 0 = Some b
        /\ PrimFloat.ltb 1 b = true /\ PrimFloat.ltb b 1 = false)
  /\ (exists b : Q,
        calculateBubbleFactor [4000; 500; 500]%Q [6000; 4000]%Q 0 = Some b
        /\ (b == 313 # 208)%Q /\ (1 < b)%Q).
Proof.
  split; [|split].
  - intros stacks payouts playerIndex. unfold calculateBubbleFactor.
    destruct (calculatePlayerEquity_returns stacks payouts playerIndex) as [e ->].
    exists e. split; reflexivity.
  - eexists. split; [vm_compute; reflexivity|]. split; vm_compute; reflexivity.
  - eexists. split; [vm_compute; reflexivity|]. split; vm_compute; reflexivity.
Qed.

Section Monotonicity.

Open Scope Q_scope.

(** Monotonicity, as far as it is proved here.  In exact arithmetic, with
    four players or fewer, positive stacks and payouts that are not negative
    and do not go up with the place, replacing [stacks[playerIndex]] by a
    larger value does not lower
    [calculatePlayerEquity(stacks, payouts, playerIndex)].  The proof rests
    on [elimination_monotone], which is limited to four players; for larger
    tables the statement is neither proved nor refuted here. *)
Theorem larger_stack_keeps_equity (stacks payouts : list Q) (k : nat) (x : Q) :
  positive stacks -> (length stacks <= 4)%nat ->
  nonnegative payouts -> nonincreasing payouts ->
  (k < length stacks)%nat -> nth k stacks 0 < x ->
  exists v v' : Q,
    calculatePlayerEquity stacks payouts (Z.of_nat k) = Some v
    /\ calculatePlayerEquity (replaceAt k x stacks) payouts (Z.of_nat k) = Some v'
    /\ v <= v'.
Proof.
  intros Hpos Hn Hnn Hdec Hk Hx.
  exists (equityV stacks payouts k), (equityV (replaceAt k x stacks) payouts k).
  split; [apply equityV_some|]. split; [apply equityV_some|].
  apply equity_mono with (n := length stacks); trivial; try lia.
  now apply Qlt_le_weak.
Qed.

Lemma larger_stack_keeps_equity_witness :
  positive [2000; 1500; 500] /\ (3 <= 4)%nat /\
  nonnegative [5000; 3000] /\ nonincreasing [5000; 3000] /\
  (0 < 3)%nat /\ 2000 < 2500 /\
  exists v v' : Q,
    calculatePlayerEquity [2000; 1500; 500] [5000; 3000] 0 = Some v
    /\ calculatePlayerEquity [2500; 1500; 500] [5000; 3000] 0 = Some v'
    /\ v <= v'.
Proof.
  assert (Hpos : positive [2000; 1500; 500]) by repeat constructor.
  assert (Hn : (length [2000; 1500; 500]%Q <= 4)%nat) by (simpl; lia).
  assert (Hnn : nonnegative [5000; 3000]) by (repeat constructor; discriminate).
  assert (Hdec : nonincreasing [5000; 3000]).
  { intros [|j] Hj; simpl in Hj; [discriminate|lia]. }
  assert (Hk : (0 < length [2000; 1500; 500]%Q)%nat) by (simpl; lia).
  assert (Hx : nth 0 [2000; 1500; 500] 0 < 2500) by reflexivity.
  repeat (split; [assumption|]).
  exact (@larger_stack_keeps_equity [2000; 1500; 500] [5000; 3000] 0%nat 2500
           Hpos Hn Hnn Hdec Hk Hx).
Defined.

(** Monotonicity fails for payouts that go up with the place: heads-up with
    the payouts 400 and 600, raising the first stack from 1000 to 2000 lowers
    the equity of the first player from 500 to 1400/3, in exact arithmetic
    and on binary64.  On binary64 it fails by rounding for payouts that do
    not go up: with the payouts 400 and 400 and the first stack 4145, raising
    the second stack from 496 to 3202 lowers the equity of the second player
    from 400.00000000000006 to 400. *)
Lemma rising_payouts_break_monotonicity :
  positive [1000; 1000] /\ nth 0 [1000; 1000] 0 < 2000 /\
  (exists v v' : Q,
     calculatePlayerEquity [1000; 1000] [400; 600] 0 = Some v
     /\ calculatePlayerEquity (replaceAt 0 2000 [1000; 1000]) [400; 600] 0 = Some v'
     /\ v == 500 /\ v' == 1400 # 3 /\ v' < v)
  /\ (exists v v' : float,
        calculatePlayerEquity [1000; 1000]%float [400; 600]%float 0 = Some v
        /\ calculatePlayerEquity [2000; 1000]%float [400; 600]%float 0 = Some v'
        /\ v = 500%float /\ PrimFloat.ltb v' v = true)
  /\ (exists v v' : float,
        calculatePlayerEquity [4145; 496]%float [400; 400]%float 1 = Some v
        /\ calculatePlayerEquity [4145; 3202]%float [400; 400]%float 1 = Some v'
        /\ PrimFloat.ltb 496 3202 = true
        /\ v' = 400%float /\ PrimFloat.ltb v' v = true).
Proof.
  split; [repeat constructor|]. split; [reflexivity|]. split; [|split].
  - do 2 eexists. split; [vm_compute; reflexivity|].
    split; [vm_compute; reflexivity|]. repeat split; vm_compute; reflexivity.
  - do 2 eexists. split; [vm_compute; reflexivity|].
    split; [vm_compute; reflexivity|]. split; vm_compute; reflexivity.
  - do 2 eexists. split; [vm_compute; reflexivity|].
    split; [vm_compute; reflexivity|]. repeat split; vm_compute; reflexivity.
Qed.

End Monotonicity.

(** * Lemmas for the further properties *)

Section EqualStacks.

Open Scope Q_scope.

Lemma removeAt_repeat (s : Q) (n i : nat) :
  (i < n)%nat -> removeAt i (repeat s n) = repeat s (n - 1).
Proof.
  revert i; induction n as [|n IH]; intros i Hi; [lia|].
  destruct i as [|i]; simpl.
  - now rewrite Nat.sub_0_r.
  - rewrite IH by lia. destruct n; [lia|]. simpl. now rewrite Nat.sub_0_r.
Qed.

Lemma positive_repeat (s : Q) (n : nat) : 0 < s -> positive (repeat s n).
Proof.
  intros Hs. unfold positive. induction n; simpl; constructor; auto.
Qed.

Lemma nth_repeat_in (s : Q) (n i : nat) :
  (i < n)%nat -> nth i (repeat s n) 0 = s.
Proof.
  revert i; induction n as [|n IH]; intros [|i] Hi; simpl; try lia; trivial.
  apply IH. lia.
Qed.

Lemma bigsum_one_marked (n k : nat) (a d : Q) :
  (k < n)%nat ->
  bigsum n (fun j => if (j =? k)%nat then a else d)
  == a + (inject_Z (Z.of_nat n) - 1) * d.
Proof.
  intros Hk.
  rewrite (@bigsum_ext _ _ (fun j => d + (if (j =? k)%nat then a - d else 0))).
  - rewrite bigsum_plus, bigsum_const, bigsum_indicator by assumption. ring.
  - intros j _. destruct (j =? k)%nat; ring.
Qed.

Lemma inject_nat_pos (n : nat) : (1 <= n)%nat -> 0 < inject_Z (Z.of_nat n).
Proof.
  intros Hn. change 0 with (inject_Z 0). rewrite <- Zlt_Qlt. lia.
Qed.

Lemma inject_nat_pred (n : nat) :
  (1 <= n)%nat ->
  inject_Z (Z.of_nat (n - 1)) == inject_Z (Z.of_nat n) - 1.
Proof.
  intros Hn. rewrite Nat2Z.inj_sub by lia. unfold Qminus, Z.sub.
  rewrite inject_Z_plus, inject_Z_opp. reflexivity.
Qed.

(** With equal stacks every player is as likely as any other to go out
    next. *)
Lemma elimination_equal (s : Q) (n i : nat) :
  0 < s -> (2 <= n)%nat -> (i < n)%nat ->
  nth i (calculateEliminationProbabilities (repeat s n)) 0
  == 1 / inject_Z (Z.of_nat n).
Proof.
  intros Hs Hn Hi.
  pose proof (positive_repeat n Hs) as Hpos.
  assert (Hlen : length (repeat s n) = n) by apply repeat_length.
  rewrite elimination_closed by (rewrite ?Hlen; trivial).
  rewrite Hlen.
  assert (Ew : forall j, (j < n)%nat ->
                weight (repeat s n) j == weight (repeat s n) i).
  { intros j Hj. unfold weight, recip. now rewrite !nth_repeat_in. }
  rewrite (@bigsum_ext _ _ (fun _ => weight (repeat s n) i)) by assumption.
  rewrite bigsum_const.
  pose proof (@weight_positive (repeat s n) i) as Hw.
  rewrite Hlen in Hw. specialize (Hw Hn Hpos Hi).
  pose proof (inject_nat_pos (n := n) ltac:(lia)) as Hnq.
  field. split; lra.
Qed.

Lemma inMoney_equal (n : nat) :
  forall (s : Q) (payouts : list Q) (k : nat),
    0 < s -> (2 <= n)%nat -> (n <= length payouts)%nat -> (k < n)%nat ->
    inMoneyV (repeat s n) payouts k
    == Qsum (firstn n payouts) / inject_Z (Z.of_nat n).
Proof.
  induction n as [|n IH]; intros s payouts k Hs Hn Hm Hk; [lia|].
  destruct (Nat.eq_dec n 1) as [->|Hn1].
  - destruct payouts as [|p0 [|p1 rest]]; simpl in Hm; try lia.
    simpl repeat. rewrite inMoneyV_heads_up.
    replace (nth k [s; s] 0) with s by (destruct k as [|[|k]]; simpl; trivial; lia).
    simpl. field. lra.
  - assert (Hlen : length (repeat s (S n)) = S n) by apply repeat_length.
    rewrite inMoneyV_eq by (rewrite Hlen; lia). rewrite Hlen.
    replace (S n - 1)%nat with n by lia.
    pose proof (inject_nat_pos (n := n) ltac:(lia)) as Hnq.
    pose proof (inject_nat_pos (n := S n) ltac:(lia)) as HSnq.
    pose proof (inject_nat_pred (n := S n) ltac:(lia)) as Epred.
    replace (S n - 1)%nat with n in Epred by lia.
    rewrite (@bigsum_ext _ _ (fun i =>
      if (i =? k)%nat then 1 / inject_Z (Z.of_nat (S n)) * nth n payouts 0
      else 1 / inject_Z (Z.of_nat (S n))
           * (Qsum (firstn n payouts) / inject_Z (Z.of_nat n)))).
    + rewrite bigsum_one_marked by assumption.
      rewrite Qsum_firstn_last, <- Epred. field. split; lra.
    + intros i Hi. rewrite elimination_equal by (trivial; lia).
      destruct (Nat.eqb_spec i k) as [|Hik]; [reflexivity|].
      rewrite removeAt_repeat by assumption.
      replace (S n - 1)%nat with n by lia.
      rewrite IH; trivial.
      * now rewrite firstn_firstn, Nat.min_id.
      * lia.
      * rewrite length_firstn. lia.
      * destruct (Nat.ltb_spec i k); lia.
Qed.

Lemma equity_equal (n : nat) :
  forall (s : Q) (payouts : list Q) (k : nat),
    0 < s -> (1 <= n)%nat -> (k < n)%nat ->
    equityV (repeat s n) payouts k
    == Qsum (firstn n payouts) / inject_Z (Z.of_nat n).
Proof.
  induction n as [|n IH]; intros s payouts k Hs Hn Hk; [lia|].
  assert (Hlen : length (repeat s (S n)) = S n) by apply repeat_length.
  destruct (Nat.eq_dec n 0) as [->|Hn0].
  { rewrite equityV_single by assumption.
    destruct payouts; simpl; field. }
  destruct (Nat.leb_spec (S n) (length payouts)) as [Hm|Hm].
  { rewrite equityV_inMoney by (rewrite Hlen; lia).
    apply inMoney_equal; trivial; lia. }
  rewrite equityV_eq by (rewrite Hlen; lia). rewrite Hlen.
  pose proof (inject_nat_pos (n := n) ltac:(lia)) as Hnq.
  pose proof (inject_nat_pos (n := S n) ltac:(lia)) as HSnq.
  pose proof (inject_nat_pred (n := S n) ltac:(lia)) as Epred.
  replace (S n - 1)%nat with n in Epred by lia.
  rewrite (@bigsum_ext _ _ (fun i =>
    if (i =? k)%nat then 0
    else 1 / inject_Z (Z.of_nat (S n))
         * (Qsum payouts / inject_Z (Z.of_nat n)))).
  + rewrite bigsum_one_marked by assumption.
    rewrite firstn_all2 by lia. rewrite <- Epred. field. split; lra.
  + intros i Hi. destruct (Nat.eqb_spec i k) as [|Hik]; [reflexivity|].
    destruct (Nat.ltb_spec 0 (length payouts)) as [Hp|Hp].
    * rewrite elimination_equal by (trivial; lia).
      rewrite removeAt_repeat by assumption.
      replace (S n - 1)%nat with n by lia.
      rewrite IH; trivial; try lia.
      -- now rewrite firstn_all2 by lia.
      -- destruct (Nat.ltb_spec i k); lia.
    * destruct payouts; [|simpl in Hp; lia]. simpl Qsum. unfold Qdiv. ring.
Qed.

Lemma sum_repeat (s : Q) (n : nat) :
  sum (repeat s n) == inject_Z (Z.of_nat n) * s.
Proof.
  rewrite sum_Qsum. induction n as [|n IH].
  - simpl. ring.
  - cbn [repeat Qsum fold_right]. fold (Qsum (repeat s n)).
    rewrite IH, Nat2Z.inj_succ. unfold Z.succ. rewrite inject_Z_plus. ring.
Qed.

End EqualStacks.

Section Bounds.

Open Scope Q_scope.

Lemma nonincreasing_head (payouts : list Q) (j : nat) :
  nonincreasing payouts -> (j < length payouts)%nat ->
  nth j payouts 0 <= nth 0 payouts 0.
Proof.
  intros Hdec. induction j as [|j IH]; intros Hj.
  - apply Qle_refl.
  - apply Qle_trans with (nth j payouts 0); [now apply Hdec|]. apply IH. lia.
Qed.

(** In the money, no player gets more than the first payout. *)
Lemma inMoney_upper (n : nat) :
  forall (stacks payouts : list Q) (k : nat),
    length stacks = n -> (2 <= n)%nat -> (n <= length payouts)%nat ->
    positive stacks -> nonincreasing payouts -> (k < n)%nat ->
    inMoneyV stacks payouts k <= nth 0 payouts 0.
Proof.
  induction n as [|n IH]; intros stacks payouts k Hlen Hn Hm Hpos Hdec Hk; [lia|].
  destruct (Nat.eq_dec n 1) as [->|Hn1].
  - destruct stacks as [|s0 [|s1 [|? ?]]]; try discriminate.
    destruct payouts as [|p0 [|p1 rest]]; simpl in Hm; try lia.
    rewrite inMoneyV_heads_up.
    pose proof (Hdec 0%nat) as H10. simpl in H10. specialize (H10 ltac:(lia)).
    inversion Hpos as [|? ? H0 Hpos']; subst.
    inversion Hpos' as [|? ? H1 _]; subst.
    assert (Hw : nth k [s0; s1] 0 / (s0 + s1) <= 1).
    { apply Qle_shift_div_r; [lra|]. destruct k as [|[|[|k]]]; simpl; lra. }
    simpl nth at 3.
    set (wk := nth k [s0; s1] 0 / (s0 + s1)) in *.
    assert (0 <= (1 - wk) * (p0 - p1)) by (apply Qmult_le_0_compat; lra).
    lra.
  - rewrite inMoneyV_eq by lia. rewrite Hlen.
    replace (S n - 1)%nat with n by lia.
    set (P := nth 0 payouts 0).
    rewrite <- (Qmult_1_r P).
    rewrite <- (@elimination_total stacks) by (trivial || lia).
    rewrite Hlen, <- bigsum_scale.
    apply bigsum_le. intros i Hi.
    rewrite (Qmult_comm P). apply Qmult_le_l.
    { apply elimination_positive; trivial; lia. }
    destruct (Nat.eqb_spec i k) as [|Hik].
    + apply nonincreasing_head; trivial; lia.
    + apply Qle_trans with (nth 0 (firstn n payouts) 0).
      * apply IH.
        -- rewrite removeAt_length by lia. lia.
        -- lia.
        -- rewrite length_firstn. lia.
        -- now apply removeAt_positive.
        -- now apply nonincreasing_firstn.
        -- destruct (Nat.ltb_spec i k); lia.
      * rewrite nth_firstn. destruct (Nat.ltb_spec 0 n); [|lia]. apply Qle_refl.
Qed.

Lemma equity_upper (n : nat) :
  forall (stacks payouts : list Q) (k : nat),
    length stacks = n -> (1 <= n)%nat -> positive stacks ->
    nonincreasing payouts -> nonnegative payouts -> (k < n)%nat ->
    equityV stacks payouts k <= nth 0 payouts 0.
Proof.
  induction n as [|n IH]; intros stacks payouts k Hlen Hn Hpos Hdec Hnn Hk; [lia|].
  destruct (Nat.eq_dec n 0) as [->|Hn0].
  { rewrite equityV_single by assumption. apply Qle_refl. }
  destruct (Nat.leb_spec (S n) (length payouts)) as [Hm|Hm].
  { rewrite equityV_inMoney by lia. apply inMoney_upper with (n := S n); trivial; lia. }
  rewrite equityV_eq by lia. rewrite Hlen.
  set (P := nth 0 payouts 0).
  assert (HP : 0 <= P) by now apply nonnegative_nth.
  rewrite <- (Qmult_1_r P).
  rewrite <- (@elimination_total stacks) by (trivial || lia).
  rewrite Hlen, <- bigsum_scale.
  apply bigsum_le. intros i Hi.
  assert (He : 0 < nth i (calculateEliminationProbabilities stacks) 0)
    by (apply elimination_positive; trivial; lia).
  assert (HPe : 0 <= P * nth i (calculateEliminationProbabilities stacks) 0)
    by (apply Qmult_le_0_compat; lra).
  destruct (Nat.eqb_spec i k) as [|Hik]; [assumption|].
  destruct (0 <? length payouts)%nat; [|assumption].
  rewrite (Qmult_comm P). apply Qmult_le_l; [assumption|].
  apply IH; trivial.
  - rewrite removeAt_length by lia. lia.
  - lia.
  - now apply removeAt_positive.
  - destruct (Nat.ltb_spec i k); lia.
Qed.

(** The weight of a player grows with the reciprocal of the stack. *)
Lemma weightOf_monotone (c R r1 r2 : Q) :
  0 <= c -> 0 < R -> 0 < r1 -> r1 <= r2 ->
  weightOf c R r1 <= weightOf c R r2.
Proof.
  intros Hc HR H1 H12. unfold weightOf.
  assert (0 <= c * r1) by (apply Qmult_le_0_compat; lra).
  assert (0 <= c * r2) by (apply Qmult_le_0_compat; lra).
  apply Qdiv_le_cross; try lra.
  assert (r1 * R <= r2 * R) by (apply Qmult_le_compat_r; lra).
  lra.
Qed.

Lemma elimination_order_aux (stacks : list Q) (i j : nat) :
  positive stacks -> (2 <= length stacks)%nat ->
  (i < length stacks)%nat -> (j < length stacks)%nat ->
  nth i stacks 0 <= nth j stacks 0 ->
  nth j (calculateEliminationProbabilities stacks) 0
  <= nth i (calculateEliminationProbabilities stacks) 0.
Proof.
  intros Hpos Hn Hi Hj Hij.
  rewrite !elimination_closed by assumption.
  assert (HG : 0 < bigsum (length stacks) (weight stacks)).
  { apply bigsum_positive; [lia|]. intros; now apply weight_positive. }
  apply Qdiv_le_cross; trivial.
  apply Qmult_le_compat_r; [|lra].
  unfold weight. apply weightOf_monotone.
  - now apply fieldSize_nonneg.
  - now apply recipTotal_positive.
  - now apply recip_positive.
  - unfold recip.
    pose proof (positive_nth Hpos Hi). pose proof (positive_nth Hpos Hj).
    apply Qdiv_le_cross; trivial. lra.
Qed.

End Bounds.

Section WholeTable.

Open Scope Q_scope.

Lemma calculateICM_exact (stacks payouts : list Q) (k : nat) :
  stacks <> [] -> payouts <> [] ->
  calculateICM stacks payouts (Z.of_nat k) = Returns (icmV stacks payouts k).
Proof.
  intros Hs Hp. unfold calculateICM, icmV.
  destruct stacks; [congruence|]. destruct payouts; [congruence|].
  cbn [length Nat.eqb orb]. rewrite equityV_some, get_of_nat. reflexivity.
Qed.

Lemma sum_positive (stacks : list Q) :
  stacks <> [] -> positive stacks -> 0 < sum stacks.
Proof.
  intros Hne Hpos. rewrite sum_Qsum. now apply Qsum_pos.
Qed.

Lemma chip_shares_total (stacks : list Q) (P : Q) :
  stacks <> [] -> positive stacks ->
  bigsum (length stacks) (fun k => nth k stacks 0 / sum stacks * P) == P.
Proof.
  intros Hne Hpos. pose proof (sum_positive Hne Hpos) as HT.
  rewrite (@bigsum_ext _ _ (fun k => (P / sum stacks) * nth k stacks 0))
    by (intros; field; lra).
  rewrite bigsum_scale, bigsum_nth, <- sum_Qsum. field. lra.
Qed.

Lemma sum_map_seq (n : nat) (f : nat -> Q) : sum (map f (seq 0 n)) == bigsum n f.
Proof. apply sum_Qsum. Qed.

End WholeTable.


Section Scaling.

Open Scope Q_scope.

Lemma removeAt_map (f : Q -> Q) (i : nat) (a : list Q) :
  removeAt i (map f a) = map f (removeAt i a).
Proof.
  revert i; induction a as [|x t IH]; intros [|i]; simpl; trivial.
  now rewrite IH.
Qed.

Lemma positive_scale (c : Q) (stacks : list Q) :
  0 < c -> positive stacks -> positive (map (Qmult c) stacks).
Proof.
  unfold positive. intros Hc Hpos.
  induction Hpos as [|x l Hx _ IH]; simpl; constructor; trivial.
  now apply Qmult_lt_0_compat.
Qed.

Lemma nth_scale (c : Q) (a : list Q) (j : nat) :
  nth j (map (Qmult c) a) 0 == c * nth j a 0.
Proof.
  revert j; induction a as [|x t IH]; intros [|j]; simpl; try ring.
  apply IH.
Qed.

Lemma elimination_scale (c : Q) (stacks : list Q) (i : nat) :
  0 < c -> positive stacks -> (2 <= length stacks)%nat -> (i < length stacks)%nat ->
  nth i (calculateEliminationProbabilities (map (Qmult c) stacks)) 0
  == nth i (calculateEliminationProbabilities stacks) 0.
Proof.
  intros Hc Hpos Hn Hi.
  pose proof (positive_scale Hc Hpos) as Hpos'.
  assert (Hlen : length (map (Qmult c) stacks) = length stacks) by apply length_map.
  rewrite !elimination_closed by (rewrite ?Hlen; trivial). rewrite Hlen.
  assert (Er : forall j, (j < length stacks)%nat ->
             recip (map (Qmult c) stacks) j == recip stacks j / c).
  { intros j Hj. unfold recip. rewrite nth_scale.
    pose proof (positive_nth Hpos Hj). field. split; lra. }
  assert (ER : recipTotal (map (Qmult c) stacks) == recipTotal stacks / c).
  { unfold recipTotal. rewrite Hlen.
    rewrite (@bigsum_ext _ _ (fun j => / c * recip stacks j)).
    - rewrite bigsum_scale. field. lra.
    - intros j Hj. rewrite Er by assumption. field. lra. }
  assert (Ew : forall j, (j < length stacks)%nat ->
             weight (map (Qmult c) stacks) j == weight stacks j).
  { intros j Hj. unfold weight, weightOf, fieldSize.
    rewrite Hlen, ER, Er by assumption.
    pose proof (recip_positive Hpos Hj) as Hr.
    pose proof (recipTotal_positive Hn Hpos) as HR.
    pose proof (fieldSize_nonneg stacks Hn) as Hf. unfold fieldSize in Hf.
    set (m := inject_Z (Z.of_nat (length stacks)) - 2) in *.
    assert (0 <= m * recip stacks j) by (apply Qmult_le_0_compat; lra).
    field. split; lra. }
  rewrite (@bigsum_ext _ _ (weight stacks)) by assumption.
  now rewrite Ew.
Qed.

Lemma inMoney_scale (n : nat) :
  forall (c : Q) (stacks payouts : list Q) (k : nat),
    0 < c -> length stacks = n -> (2 <= n)%nat -> (n <= length payouts)%nat ->
    positive stacks -> (k < n)%nat ->
    inMoneyV (map (Qmult c) stacks) payouts k == inMoneyV stacks payouts k.
Proof.
  induction n as [|n IH]; intros c stacks payouts k Hc Hlen Hn Hm Hpos Hk; [lia|].
  assert (Hlen' : length (map (Qmult c) stacks) = S n)
    by now rewrite length_map.
  destruct (Nat.eq_dec n 1) as [->|Hn1].
  - destruct stacks as [|s0 [|s1 [|? ?]]]; try discriminate.
    destruct payouts as [|p0 [|p1 rest]]; simpl in Hm; try lia.
    inversion Hpos as [|? ? H0 Hpos']; subst.
    inversion Hpos' as [|? ? H1 _]; subst.
    simpl map. rewrite !inMoneyV_heads_up.
    assert (E : nth k [c * s0; c * s1] 0 / (c * s0 + c * s1)
                == nth k [s0; s1] 0 / (s0 + s1)).
    { assert (0 < c * s0) by now apply Qmult_lt_0_compat.
      assert (0 < c * s1) by now apply Qmult_lt_0_compat.
      destruct k as [|[|k]]; [| |lia]; simpl; field; split; lra. }
    now rewrite E.
  - rewrite !inMoneyV_eq by lia. rewrite Hlen', Hlen.
    apply bigsum_ext. intros i Hi.
    rewrite elimination_scale by (trivial; lia).
    apply Qmult_comp; [reflexivity|].
    destruct (Nat.eqb_spec i k) as [|Hik]; [reflexivity|].
    rewrite removeAt_map. apply IH; trivial.
    + rewrite removeAt_length by lia. lia.
    + lia.
    + rewrite length_firstn. lia.
    + now apply removeAt_positive.
    + destruct (Nat.ltb_spec i k); lia.
Qed.

Lemma equity_scale (n : nat) :
  forall (c : Q) (stacks payouts : list Q) (k : nat),
    0 < c -> length stacks = n -> (1 <= n)%nat -> positive stacks -> (k < n)%nat ->
    equityV (map (Qmult c) stacks) payouts k == equityV stacks payouts k.
Proof.
  induction n as [|n IH]; intros c stacks payouts k Hc Hlen Hn Hpos Hk; [lia|].
  assert (Hlen' : length (map (Qmult c) stacks) = S n)
    by now rewrite length_map.
  destruct (Nat.eq_dec n 0) as [->|Hn0].
  { now rewrite !equityV_single. }
  destruct (Nat.leb_spec (S n) (length payouts)) as [Hm|Hm].
  { rewrite !equityV_inMoney by lia. apply inMoney_scale with (n := S n); trivial; lia. }
  rewrite !equityV_eq by lia. rewrite Hlen', Hlen.
  apply bigsum_ext. intros i Hi.
  destruct (Nat.eqb_spec i k) as [|Hik]; [reflexivity|].
  destruct (0 <? length payouts)%nat; [|reflexivity].
  rewrite elimination_scale by (trivial; lia).
  apply Qmult_comp; [reflexivity|].
  rewrite removeAt_map. apply IH; trivial.
  - rewrite removeAt_length by lia. lia.
  - lia.
  - now apply removeAt_positive.
  - destruct (Nat.ltb_spec i k); lia.
Qed.

Lemma inMoney_payout_scale (n : nat) :
  forall (c : Q) (stacks payouts : list Q) (k : nat),
    length stacks = n -> (2 <= n)%nat -> (n <= length payouts)%nat ->
    inMoneyV stacks (map (Qmult c) payouts) k == c * inMoneyV stacks payouts k.
Proof.
  induction n as [|n IH]; intros c stacks payouts k Hlen Hn Hm; [lia|].
  destruct (Nat.eq_dec n 1) as [->|Hn1].
  - destruct stacks as [|s0 [|s1 [|? ?]]]; try discriminate.
    destruct payouts as [|p0 [|p1 rest]]; simpl in Hm; try lia.
    simpl map. rewrite !inMoneyV_heads_up. ring.
  - rewrite !inMoneyV_eq by lia. rewrite Hlen, <- bigsum_scale.
    apply bigsum_ext. intros i Hi.
    destruct (Nat.eqb_spec i k) as [|Hik].
    + rewrite nth_scale. ring.
    + rewrite firstn_map, IH.
      * ring.
      * rewrite removeAt_length by lia. lia.
      * lia.
      * rewrite length_firstn. lia.
Qed.

Lemma equity_payout_scale (n : nat) :
  forall (c : Q) (stacks payouts : list Q) (k : nat),
    length stacks = n -> (1 <= n)%nat ->
    equityV stacks (map (Qmult c) payouts) k == c * equityV stacks payouts k.
Proof.
  induction n as [|n IH]; intros c stacks payouts k Hlen Hn; [lia|].
  destruct (Nat.eq_dec n 0) as [->|Hn0].
  { rewrite !equityV_single by assumption. apply nth_scale. }
  destruct (Nat.leb_spec (S n) (length payouts)) as [Hm|Hm].
  { rewrite !equityV_inMoney by (rewrite ?length_map; lia).
    apply inMoney_payout_scale with (n := S n); trivial; lia. }
  rewrite !equityV_eq by (rewrite ?length_map; lia).
  rewrite Hlen, length_map, <- bigsum_scale.
  apply bigsum_ext. intros i Hi.
  destruct (Nat.eqb_spec i k) as [|Hik]; [ring|].
  destruct (0 <? length payouts)%nat; [|ring].
  rewrite IH.
  - ring.
  - rewrite removeAt_length by lia. lia.
  - lia.
Qed.

End Scaling.

Section OutOfRange.

Open Scope Q_scope.

(** With one prize, the loop of [calculatePlayerEquity] never meets an index
    outside the table, and the last player standing is paid the prize. *)
Lemma equity_outside_table (p : Q) (n : nat) :
  forall (stacks : list Q) (playerIndex : Z),
    length stacks = n -> (1 <= n)%nat -> positive stacks ->
    (playerIndex < 0 \/ Z.of_nat n <= playerIndex)%Z ->
    val (calculatePlayerEquity stacks [p] playerIndex) == p.
Proof.
  induction n as [|n IH]; intros stacks z Hlen Hn Hpos Hz; [lia|].
  rewrite calculatePlayerEquity_eq. cbv zeta. rewrite Hlen.
  destruct (Nat.eqb_spec (S n) 1) as [E|E].
  { simpl. unfold get. simpl. apply orZero_exact. }
  destruct (Nat.leb_spec (S n) (length [p])) as [Hm|Hm]; [simpl in Hm; lia|].
  rewrite (@loop_total_val _
             (fun i => nth i (calculateEliminationProbabilities stacks) 0 * p)).
  - rewrite (@bigsum_ext _ _ (fun i =>
               p * nth i (calculateEliminationProbabilities stacks) 0))
      by (intros; ring).
    rewrite bigsum_scale. rewrite <- Hlen, elimination_total by (trivial; lia).
    ring.
  - intros i e Hi. apply in_seq in Hi.
    destruct (Z.eqb_spec (Z.of_nat i) z) as [Ez|Ez]; [lia|].
    assert (Hrem : length (removeAt i stacks) = n)
      by (rewrite removeAt_length by lia; lia).
    rewrite Hrem.
    assert (Hmin : Nat.min (length [p]) n = 1%nat) by (simpl length; lia).
    rewrite Hmin. change (slice0 [p] 1) with [p]. cbn [length Nat.ltb Nat.leb].
    destruct (calculatePlayerEquity_returns (removeAt i stacks) [p]
                (newPlayerIndex z i)) as [v Hv].
    pose proof (IH (removeAt i stacks) (newPlayerIndex z i) Hrem) as Hsub.
    rewrite Hv in *. simpl val in Hsub.
    exists (e + nth i (calculateEliminationProbabilities stacks) 0 * v).
    split.
    + rewrite get_of_nat. reflexivity.
    + rewrite Hsub; [reflexivity|lia|now apply removeAt_positive|].
      unfold newPlayerIndex. destruct (Z.ltb_spec (Z.of_nat i) z); lia.
Qed.

End OutOfRange.

(** ** The callers: comparisons in exact arithmetic *)

Ltac exact_order :=
  cbn [literal numLe numLt numGe numEq mathAbs mathMax ExactOrdered.ordered] in *.

Section Comparisons.

Open Scope Q_scope.

Lemma Qle_bool_reflect (x y : Q) : reflect (x <= y) (Qle_bool x y).
Proof. apply iff_reflect. symmetry. apply Qle_bool_iff. Qed.

Lemma Qeq_bool_reflect (x y : Q) : reflect (x == y) (Qeq_bool x y).
Proof. apply iff_reflect. symmetry. apply Qeq_bool_iff. Qed.

Lemma literal_whole (n : Z) : literal n 1 == inject_Z n.
Proof. exact_order. field. Qed.

Lemma numLe_whole (x : Q) (n : Z) : reflect (x <= inject_Z n) (numLe x (literal n 1)).
Proof.
  exact_order. destruct (Qle_bool_reflect x (inject_Z n / inject_Z 1)) as [L|L];
    constructor; rewrite <- (literal_whole n); exact L.
Qed.

End Comparisons.

Section PushingRangeFacts.

Local Open Scope string_scope.
Local Open Scope list_scope.

Lemma widest_range_NoDup : NoDup getVeryWidePushRange.
Proof.
  assert (E : nodup string_dec getVeryWidePushRange = getVeryWidePushRange)
    by (vm_compute; reflexivity).
  rewrite <- E. apply NoDup_nodup.
Qed.

Lemma tiers_nested :
  (exists m, getMediumPushRange = getTightPushRange ++ m)
  /\ (exists w, getWidePushRange = getMediumPushRange ++ w)
  /\ (exists v, getVeryWidePushRange = getWidePushRange ++ v).
Proof. repeat split; eexists; reflexivity. Qed.

(** Whatever the comparisons answer, the range is one of the four tables. *)
Lemma pushing_range_shape {A : Type} `{Ordered A}
    (heroStack : A) (villainStacks : list A) (blinds antes : A)
    (position : string) (payouts : list A) :
  let range := calculateOptimalPushingRange heroStack villainStacks blinds
                                            antes position payouts in
  (exists more, range = getTightPushRange ++ more)
  /\ (exists rest, getVeryWidePushRange = range ++ rest)
  /\ In (length range) [37; 62; 92; 130]%nat.
Proof.
  cbv zeta. unfold calculateOptimalPushingRange.
  destruct (numLe _ _); [|destruct (numLe _ _); [|destruct (numLe _ _)]];
    (split; [|split]).
  - exists []. now rewrite app_nil_r.
  - eexists. unfold getVeryWidePushRange, getWidePushRange, getMediumPushRange.
    rewrite <- !app_assoc. reflexivity.
  - simpl. tauto.
  - eexists. reflexivity.
  - eexists. unfold getVeryWidePushRange, getWidePushRange.
    rewrite <- !app_assoc. reflexivity.
  - simpl. tauto.
  - eexists. unfold getWidePushRange, getMediumPushRange.
    rewrite <- !app_assoc. reflexivity.
  - eexists. reflexivity.
  - simpl. tauto.
  - eexists. unfold getVeryWidePushRange, getWidePushRange, getMediumPushRange.
    rewrite <- !app_assoc. reflexivity.
  - exists []. now rewrite app_nil_r.
  - simpl. tauto.
Qed.

(** No table lists a hand with its lower card first. *)
Lemma lower_card_first_unlisted (high low : nat) (suited : bool) :
  (high < low)%nat -> (low < 13)%nat ->
  String.eqb (nth low validRanks "") (nth high validRanks "") = false
  /\ includes getVeryWidePushRange
              (nth low validRanks "" ++ nth high validRanks ""
               ++ (if suited then "s" else "o"))%string = false.
Proof.
  intros Hlt Hlow.
  assert (T : forallb (fun low =>
                forallb (fun high =>
                  negb (high <? low)%nat
                  || (negb (String.eqb (nth low validRanks "")
                                       (nth high validRanks ""))
                      && forallb (fun suited : bool =>
                           negb (includes getVeryWidePushRange
                                   (nth low validRanks ""
                                    ++ nth high validRanks ""
                                    ++ (if suited then "s" else "o"))%string))
                         [true; false]))
                  (seq 0 13)) (seq 0 13) = true) by (vm_compute; reflexivity).
  rewrite forallb_forall in T. specialize (T low).
  rewrite forallb_forall in T. specialize (T ltac:(apply in_seq; lia) high).
  specialize (T ltac:(apply in_seq; lia)).
  apply Nat.ltb_lt in Hlt. rewrite Hlt in T. cbn [negb orb] in T.
  apply andb_true_iff in T. destruct T as [T1 T2].
  rewrite forallb_forall in T2. specialize (T2 suited).
  split.
  - now apply negb_true_iff.
  - apply negb_true_iff, T2. destruct suited; simpl; tauto.
Qed.

Lemma includes_app (a b : list string) (x : string) :
  includes (a ++ b) x = includes a x || includes b x.
Proof. apply existsb_app. Qed.

Lemma includes_In (a : list string) (x : string) :
  includes a x = true <-> In x a.
Proof.
  unfold includes. rewrite existsb_exists. split.
  - intros [y [Hy E]]. apply String.eqb_eq in E. now subst.
  - intros Hx. exists x. split; trivial. apply String.eqb_refl.
Qed.

End PushingRangeFacts.



Section Advice.

Local Open Scope string_scope.
Local Open Scope list_scope.
Open Scope Q_scope.

Lemma advice_high (bubbleFactor totalPlayers paidPositions : Q) :
  In "Avoid marginal spots"
     (getBubbleRecommendations bubbleFactor totalPlayers paidPositions)
  <-> 2 <= bubbleFactor.
Proof.
  unfold getBubbleRecommendations. exact_ops. exact_order.
  assert (E2 : inject_Z 2 / inject_Z 1 == 2) by reflexivity.
  destruct (Qle_bool_reflect (inject_Z 2 / inject_Z 1) bubbleFactor) as [H2|H2];
    destruct (Qeq_bool totalPlayers (paidPositions + 1));
    destruct (Qle_bool (inject_Z 13 / inject_Z 10) bubbleFactor);
    cbn [negb app In];
    (split;
     [ intros Ha; repeat (destruct Ha as [Ha|Ha]; try discriminate Ha);
       try contradiction; lra
     | intros Ha; first [ now left | exfalso; lra ] ]).
Qed.

Lemma advice_bubble (bubbleFactor totalPlayers paidPositions : Q) :
  In "This is the bubble - extreme caution required"
     (getBubbleRecommendations bubbleFactor totalPlayers paidPositions)
  <-> totalPlayers == paidPositions + 1.
Proof.
  unfold getBubbleRecommendations. exact_ops. exact_order.
  destruct (Qle_bool (inject_Z 2 / inject_Z 1) bubbleFactor);
    destruct (Qeq_bool_reflect totalPlayers (paidPositions + 1)) as [Hb|Hb];
    destruct (Qle_bool (inject_Z 13 / inject_Z 10) bubbleFactor);
    cbn [negb app In];
    (split;
     [ intros Ha; repeat (destruct Ha as [Ha|Ha]; try discriminate Ha);
       try contradiction; exact Hb
     | intros Ha; first [ contradiction | tauto ] ]).
Qed.

Lemma advice_low (bubbleFactor totalPlayers paidPositions : Q) :
  In "Can play closer to chip EV"
     (getBubbleRecommendations bubbleFactor totalPlayers paidPositions)
  <-> bubbleFactor < 13 # 10.
Proof.
  unfold getBubbleRecommendations. exact_ops. exact_order.
  assert (E13 : inject_Z 13 / inject_Z 10 == 13 # 10) by reflexivity.
  destruct (Qle_bool (inject_Z 2 / inject_Z 1) bubbleFactor);
    destruct (Qeq_bool totalPlayers (paidPositions + 1));
    destruct (Qle_bool_reflect (inject_Z 13 / inject_Z 10) bubbleFactor)
      as [H13|H13];
    cbn [negb app In];
    (split;
     [ intros Ha; repeat (destruct Ha as [Ha|Ha]; try discriminate Ha);
       try contradiction; lra
     | intros Ha; first [ exfalso; lra | tauto ] ]).
Qed.

Lemma interpretation_low (bubbleFactor : Q) :
  bubbleFactor < 12 # 10 ->
  getBubbleFactorInterpretation bubbleFactor
  = "LOW ICM pressure - close to chip EV".
Proof.
  intros Hlow. unfold getBubbleFactorInterpretation. exact_order.
  assert (E3 : inject_Z 3 / inject_Z 1 == 3) by reflexivity.
  assert (E2 : inject_Z 2 / inject_Z 1 == 2) by reflexivity.
  assert (E15 : inject_Z 15 / inject_Z 10 == 15 # 10) by reflexivity.
  assert (E12 : inject_Z 12 / inject_Z 10 == 12 # 10) by reflexivity.
  destruct (Qle_bool_reflect (inject_Z 3 / inject_Z 1) bubbleFactor);
    [exfalso; lra|].
  destruct (Qle_bool_reflect (inject_Z 2 / inject_Z 1) bubbleFactor);
    [exfalso; lra|].
  destruct (Qle_bool_reflect (inject_Z 15 / inject_Z 10) bubbleFactor);
    [exfalso; lra|].
  destruct (Qle_bool_reflect (inject_Z 12 / inject_Z 10) bubbleFactor);
    [exfalso; lra|].
  reflexivity.
Qed.

Lemma table_on_the_bubble (n m : nat) :
  inject_Z (Z.of_nat n) == inject_Z (Z.of_nat m) + 1 <-> n = S m.
Proof.
  change 1 with (inject_Z 1). rewrite <- inject_Z_plus, inject_Z_injective.
  lia.
Qed.

(** Equal stacks: the chip share and the equity are the same share of the
    payouts in play. *)
Lemma bubble_factor_even (s : Q) (n : nat) (payouts : list Q) (k : nat) :
  0 < s -> (k < n)%nat -> (length payouts <= n)%nat ->
  exists b : Q,
    calculateBubbleFactor (repeat s n) payouts (Z.of_nat k) = Some b /\ b == 1.
Proof.
  intros Hs Hk Hm. unfold calculateBubbleFactor.
  rewrite equityV_some, get_of_nat, nth_repeat_in by assumption.
  eexists. split; [reflexivity|]. exact_ops.
  destruct (Qle_bool (equityV (repeat s n) payouts k) 0) eqn:E; [reflexivity|].
  simpl.
  assert (He : ~ equityV (repeat s n) payouts k <= 0).
  { intros H. apply Qle_bool_iff in H. congruence. }
  rewrite equity_equal in * by (trivial; lia).
  rewrite firstn_all2 in * by assumption.
  rewrite sum_repeat, sum_Qsum.
  pose proof (inject_nat_pos (n := n) ltac:(lia)) as Hn.
  assert (Hq : ~ Qsum payouts == 0).
  { intros H. apply He. rewrite H. unfold Qdiv. rewrite Qmult_0_l. apply Qle_refl. }
  field. repeat split; lra.
Qed.

End Advice.

(** ** The request schemas in exact arithmetic *)

Section Schemas.

Open Scope Q_scope.

Lemma joiNumberMin_exact (m v : Q) : joiNumberMin m v = true -> m <= v.
Proof.
  unfold joiNumberMin, joiNumber. exact_order.
  rewrite !andb_true_iff. intros [_ Hm]. now apply Qle_bool_iff.
Qed.


Lemma stacks_of_one_or_more (stacks : list Q) :
  forallb (joiNumberMin one) stacks = true -> positive stacks.
Proof.
  unfold positive. induction stacks as [|s t IH]; simpl; intros Hall.
  - constructor.
  - apply andb_true_iff in Hall. destruct Hall as [Hs Ht].
    apply joiNumberMin_exact in Hs. exact_ops.
    constructor; [lra|auto].
Qed.

Lemma bubbleFactorSchema_exact (stacks payouts : list Q) (playerIndex : option Z) :
  bubbleFactorSchema stacks payouts playerIndex = true ->
  positive stacks /\ payouts <> []
  /\ (2 <= length stacks)%nat /\ (length stacks <= 10)%nat.
Proof.
  unfold bubbleFactorSchema. rewrite !andb_true_iff.
  intros [[[[[Hs Hn2] Hn10] _] Hp] _].
  split; [now apply stacks_of_one_or_more|].
  apply Nat.leb_le in Hn2, Hn10, Hp.
  split; [destruct payouts; [simpl in Hp; lia|discriminate]|].
  split; assumption.
Qed.


End Schemas.

(** * Further properties of the calculator and of its callers *)

Section CalculatorProperties.

Open Scope Q_scope.

(** X1.  Equal stacks, in exact arithmetic: every player has the same equity,
    the sum of the first [n] payouts divided by the number of players [n]. *)
Theorem equal_stacks_equal_shares (s : Q) (n : nat) (payouts : list Q) (k : nat) :
  0 < s -> (k < n)%nat ->
  exists v : Q,
    calculatePlayerEquity (repeat s n) payouts (Z.of_nat k) = Some v
    /\ v == sum (slice0 payouts n) / inject_Z (Z.of_nat n).
Proof.
  intros Hs Hk. exists (equityV (repeat s n) payouts k).
  split; [apply equityV_some|].
  rewrite sum_Qsum. apply equity_equal; trivial; lia.
Qed.

Lemma equal_stacks_equal_shares_witness :
  0 < 1000 /\ (2 < 4)%nat /\
  exists v : Q,
    calculatePlayerEquity (repeat 1000 4) [400; 300; 200; 100] 2 = Some v
    /\ v == sum (slice0 [400; 300; 200; 100] 4) / 4.
Proof.
  assert (Hs : 0 < 1000) by reflexivity.
  assert (Hk : (2 < 4)%nat) by lia.
  split; [exact Hs|]. split; [exact Hk|].
  exact (@equal_stacks_equal_shares 1000 4 [400; 300; 200; 100] 2 Hs Hk).
Defined.

(** X2.  In exact arithmetic, with positive stacks and payouts that are not
    negative and do not go up with the place, an equity lies between 0 and
    the first payout, and in the money ([n <= payouts.length]) it is at
    least the payout of place [n]. *)
Theorem equity_within_payouts (stacks payouts : list Q) (k : nat) :
  positive stacks -> nonnegative payouts -> nonincreasing payouts ->
  (k < length stacks)%nat ->
  exists v : Q,
    calculatePlayerEquity stacks payouts (Z.of_nat k) = Some v
    /\ 0 <= v /\ v <= nth 0 payouts 0
    /\ ((length stacks <= length payouts)%nat ->
        nth (length stacks - 1) payouts 0 <= v).
Proof.
  intros Hpos Hnn Hdec Hk. exists (equityV stacks payouts k).
  split; [apply equityV_some|]. split; [|split].
  - apply equity_nonneg with (n := length stacks); trivial; lia.
  - apply equity_upper with (n := length stacks); trivial; lia.
  - intros Hm. destruct (Nat.eq_dec (length stacks) 1) as [E|E].
    + rewrite equityV_single, E by assumption. apply Qle_refl.
    + rewrite equityV_inMoney by assumption.
      apply inMoney_lower; trivial; lia.
Qed.

Lemma equity_within_payouts_witness :
  positive [2000; 1500; 500] /\ nonnegative [5000; 3000] /\
  nonincreasing [5000; 3000] /\ (1 < 3)%nat /\
  exists v : Q,
    calculatePlayerEquity [2000; 1500; 500] [5000; 3000] 1 = Some v
    /\ 0 <= v /\ v <= 5000
    /\ ((3 <= 2)%nat -> nth 2 [5000; 3000] 0 <= v).
Proof.
  assert (Hpos : positive [2000; 1500; 500]) by repeat constructor.
  assert (Hnn : nonnegative [5000; 3000]) by (repeat constructor; discriminate).
  assert (Hdec : nonincreasing [5000; 3000]).
  { intros [|j] Hj; simpl in Hj; [discriminate|lia]. }
  assert (Hk : (1 < length [2000; 1500; 500]%Q)%nat) by (simpl; lia).
  repeat (split; [assumption|]).
  exact (@equity_within_payouts [2000; 1500; 500] [5000; 3000] 1 Hpos Hnn Hdec Hk).
Defined.

(** X3.  In exact arithmetic, a player with the larger stack is not more
    likely to go out next: the elimination probabilities are ordered against
    the stacks. *)
Theorem larger_stack_goes_out_less_often (stacks : list Q) (i j : nat) :
  positive stacks -> (i < length stacks)%nat -> (j < length stacks)%nat ->
  nth i stacks 0 <= nth j stacks 0 ->
  nth j (calculateEliminationProbabilities stacks) 0
  <= nth i (calculateEliminationProbabilities stacks) 0.
Proof.
  intros Hpos Hi Hj Hs.
  destruct (Nat.leb_spec 2 (length stacks)) as [Hn|Hn].
  - now apply elimination_order_aux.
  - replace j with i by lia. apply Qle_refl.
Qed.

Lemma larger_stack_goes_out_less_often_witness :
  positive [4000; 500; 700] /\ (1 < 3)%nat /\ (0 < 3)%nat /\
  500 <= 4000 /\
  nth 0 (calculateEliminationProbabilities [4000; 500; 700]) 0
  <= nth 1 (calculateEliminationProbabilities [4000; 500; 700]) 0.
Proof.
  assert (Hpos : positive [4000; 500; 700]) by repeat constructor.
  assert (Hi : (1 < length [4000; 500; 700]%Q)%nat) by (simpl; lia).
  assert (Hj : (0 < length [4000; 500; 700]%Q)%nat) by (simpl; lia).
  assert (Hs : nth 1 [4000; 500; 700] 0 <= nth 0 [4000; 500; 700] 0) by discriminate.
  repeat (split; [assumption|]).
  exact (@larger_stack_goes_out_less_often [4000; 500; 700] 1 0 Hpos Hi Hj Hs).
Defined.

(** X4.  Over a whole table, in exact arithmetic, with positive stacks and no
    more payouts than players: the [chipEV] of the results of [calculateICM]
    add up to [sum(payouts)], and so do the equities, so the risk premiums
    add up to 0. *)
Theorem risk_premiums_cancel (stacks payouts : list Q) :
  positive stacks -> stacks <> [] -> payouts <> [] ->
  (length payouts <= length stacks)%nat ->
  exists results : list (ICMResult Q),
    Forall2 (fun k r => calculateICM stacks payouts (Z.of_nat k) = Returns r)
            (seq 0 (length stacks)) results
    /\ sum (map (@chipEV Q) results) == sum payouts
    /\ sum (map (@equity Q) results) == sum payouts
    /\ sum (map (@riskPremium Q) results) == 0.
Proof.
  intros Hpos Hs Hp Hm.
  exists (map (icmV stacks payouts) (seq 0 (length stacks))).
  assert (EC : bigsum (length stacks) (fun k => chipEV (icmV stacks payouts k))
               == sum payouts).
  { apply (chip_shares_total (sum payouts) Hs Hpos). }
  assert (EE : bigsum (length stacks) (fun k => equity (icmV stacks payouts k))
               == sum payouts).
  { simpl. rewrite equity_conservation by trivial.
    rewrite firstn_all2 by assumption. symmetry. apply sum_Qsum. }
  split; [|split; [|split]].
  - induction (seq 0 (length stacks)) as [|k l IH]; simpl; constructor; trivial.
    now apply calculateICM_exact.
  - now rewrite map_map, sum_map_seq.
  - now rewrite map_map, sum_map_seq.
  - rewrite map_map, sum_map_seq.
    rewrite (@bigsum_ext _ _ (fun k => chipEV (icmV stacks payouts k)
                                       + (- (1)) * equity (icmV stacks payouts k)))
      by (intros; simpl; ring).
    rewrite bigsum_plus, bigsum_scale, EC, EE. ring.
Qed.

Lemma risk_premiums_cancel_witness :
  positive [2000; 1500; 500] /\ [2000; 1500; 500] <> [] /\ [5000; 3000] <> [] /\
  (2 <= 3)%nat /\
  exists results : list (ICMResult Q),
    Forall2 (fun k r => calculateICM [2000; 1500; 500] [5000; 3000] (Z.of_nat k)
                        = Returns r)
            (seq 0 3) results
    /\ sum (map (@chipEV Q) results) == sum [5000; 3000]
    /\ sum (map (@equity Q) results) == sum [5000; 3000]
    /\ sum (map (@riskPremium Q) results) == 0.
Proof.
  assert (Hpos : positive [2000; 1500; 500]) by repeat constructor.
  assert (Hs : [2000; 1500; 500] <> []) by discriminate.
  assert (Hp : [5000; 3000] <> []) by discriminate.
  assert (Hm : (length [5000; 3000]%Q <= length [2000; 1500; 500]%Q)%nat)
    by (simpl; lia).
  repeat (split; [assumption|]).
  exact (@risk_premiums_cancel [2000; 1500; 500] [5000; 3000] Hpos Hs Hp Hm).
Defined.

(** X5.  In exact arithmetic, for a player of a table of positive stacks,
    the bubble factor and the risk premium of [calculateICM] tell the same
    thing: with a positive equity the bubble factor is [chipEV / equity],
    above 1 exactly when the risk premium is positive and below 1 exactly
    when it is negative; with an equity that is not positive the bubble
    factor is 1. *)
Theorem bubble_factor_tracks_risk_premium (stacks payouts : list Q) (k : nat) :
  positive stacks -> (k < length stacks)%nat -> payouts <> [] ->
  exists (r : ICMResult Q) (b : Q),
    calculateICM stacks payouts (Z.of_nat k) = Returns r
    /\ calculateBubbleFactor stacks payouts (Z.of_nat k) = Some b
    /\ (0 < equity r ->
        b == chipEV r / equity r
        /\ (1 < b <-> 0 < riskPremium r)
        /\ (b < 1 <-> riskPremium r < 0))
    /\ (equity r <= 0 -> b = 1).
Proof.
  intros Hpos Hk Hp.
  assert (Hs : stacks <> []) by (destruct stacks; [simpl in Hk; lia|discriminate]).
  unfold calculateBubbleFactor.
  rewrite calculateICM_exact, equityV_some, get_of_nat by assumption.
  do 2 eexists.
  split; [reflexivity|]. split; [reflexivity|].
  cbn [icmV equity chipEV riskPremium]. exact_ops.
  set (e := equityV stacks payouts k).
  set (chip := nth k stacks 0 / sum stacks * sum payouts).
  split.
  - intros He. destruct (Qle_bool e 0) eqn:E.
    { apply Qle_bool_iff in E. lra. }
    simpl. split; [reflexivity|].
    split; split; intros H.
    + assert (0 < (chip / e - 1) * e) by (apply Qmult_lt_0_compat; lra).
      assert ((chip / e - 1) * e == chip - e) by (field; lra). lra.
    + assert (0 < (chip - e) / e) by (apply Qdiv_pos; lra).
      assert ((chip - e) / e == chip / e - 1) by (field; lra). lra.
    + assert (0 < (1 - chip / e) * e) by (apply Qmult_lt_0_compat; lra).
      assert ((1 - chip / e) * e == e - chip) by (field; lra). lra.
    + assert (0 < (e - chip) / e) by (apply Qdiv_pos; lra).
      assert ((e - chip) / e == 1 - chip / e) by (field; lra). lra.
  - intros He. apply Qle_bool_iff in He. now rewrite He.
Qed.

Lemma bubble_factor_tracks_risk_premium_witness :
  positive [4000; 500; 500] /\ (0 < 3)%nat /\ [6000; 4000] <> [] /\
  exists (r : ICMResult Q) (b : Q),
    calculateICM [4000; 500; 500] [6000; 4000] 0 = Returns r
    /\ calculateBubbleFactor [4000; 500; 500] [6000; 4000] 0 = Some b
    /\ (0 < equity r ->
        b == chipEV r / equity r
        /\ (1 < b <-> 0 < riskPremium r)
        /\ (b < 1 <-> riskPremium r < 0))
    /\ (equity r <= 0 -> b = 1).
Proof.
  assert (Hpos : positive [4000; 500; 500]) by repeat constructor.
  assert (Hk : (0 < length [4000; 500; 500]%Q)%nat) by (simpl; lia).
  assert (Hp : [6000; 4000] <> []) by discriminate.
  repeat (split; [assumption|]).
  exact (@bubble_factor_tracks_risk_premium [4000; 500; 500] [6000; 4000] 0
           Hpos Hk Hp).
Defined.

(** X6.  Equal stacks and no more payouts than players, in exact
    arithmetic: for every player the chip value and the equity of
    [calculateICM] are the same, the risk premium is 0 and the bubble factor
    is 1. *)
Theorem equal_stacks_no_icm_pressure
    (s : Q) (n : nat) (payouts : list Q) (k : nat) :
  0 < s -> (k < n)%nat -> payouts <> [] -> (length payouts <= n)%nat ->
  exists (r : ICMResult Q) (b : Q),
    calculateICM (repeat s n) payouts (Z.of_nat k) = Returns r
    /\ calculateBubbleFactor (repeat s n) payouts (Z.of_nat k) = Some b
    /\ b == 1 /\ chipEV r == equity r /\ riskPremium r == 0.
Proof.
  intros Hs Hk Hp Hm.
  destruct (bubble_factor_even payouts Hs Hk Hm) as [b [Hb Hone]].
  assert (Hne : repeat s n <> []) by (destruct n; [lia|discriminate]).
  rewrite calculateICM_exact by assumption.
  exists (icmV (repeat s n) payouts k), b.
  split; [reflexivity|]. split; [exact Hb|]. split; [exact Hone|].
  cbn [icmV chipEV equity riskPremium].
  assert (E : nth k (repeat s n) 0 / sum (repeat s n) * sum payouts
              == equityV (repeat s n) payouts k).
  { rewrite equity_equal by (trivial; lia).
    rewrite firstn_all2 by assumption.
    rewrite nth_repeat_in by assumption.
    rewrite sum_repeat, sum_Qsum.
    pose proof (inject_nat_pos (n := n) ltac:(lia)) as Hn.
    field. split; lra. }
  split; [exact E|]. rewrite E. ring.
Qed.

Lemma equal_stacks_no_icm_pressure_witness :
  0 < 100 /\ (1 < 3)%nat /\ [6000; 4000] <> [] /\ (2 <= 3)%nat /\
  exists (r : ICMResult Q) (b : Q),
    calculateICM (repeat 100 3) [6000; 4000] 1 = Returns r
    /\ calculateBubbleFactor (repeat 100 3) [6000; 4000] 1 = Some b
    /\ b == 1 /\ chipEV r == equity r /\ riskPremium r == 0.
Proof.
  assert (Hs : 0 < 100) by reflexivity.
  assert (Hk : (1 < 3)%nat) by lia.
  assert (Hp : [6000; 4000] <> []) by discriminate.
  assert (Hm : (length [6000; 4000]%Q <= 3)%nat) by (simpl; lia).
  repeat (split; [assumption|]).
  exact (@equal_stacks_no_icm_pressure 100 3 [6000; 4000] 1 Hs Hk Hp Hm).
Defined.

(** X7.  In exact arithmetic, an equity depends on the stacks only through
    their proportions: multiplying every stack by the same positive factor
    (counting the chips in another unit) leaves it unchanged. *)
Theorem equity_unchanged_by_chip_unit
    (c : Q) (stacks payouts : list Q) (k : nat) :
  0 < c -> positive stacks -> (k < length stacks)%nat ->
  exists v w : Q,
    calculatePlayerEquity (map (Qmult c) stacks) payouts (Z.of_nat k) = Some v
    /\ calculatePlayerEquity stacks payouts (Z.of_nat k) = Some w
    /\ v == w.
Proof.
  intros Hc Hpos Hk.
  exists (equityV (map (Qmult c) stacks) payouts k), (equityV stacks payouts k).
  split; [apply equityV_some|]. split; [apply equityV_some|].
  apply equity_scale with (n := length stacks); trivial; lia.
Qed.

Lemma equity_unchanged_by_chip_unit_witness :
  0 < 1 # 100 /\ positive [2000; 1500; 500] /\ (2 < 3)%nat /\
  exists v w : Q,
    calculatePlayerEquity (map (Qmult (1 # 100)) [2000; 1500; 500]) [5000; 3000] 2
    = Some v
    /\ calculatePlayerEquity [2000; 1500; 500] [5000; 3000] 2 = Some w
    /\ v == w.
Proof.
  assert (Hc : 0 < 1 # 100) by reflexivity.
  assert (Hpos : positive [2000; 1500; 500]) by repeat constructor.
  assert (Hk : (2 < length [2000; 1500; 500]%Q)%nat) by (simpl; lia).
  repeat (split; [assumption|]).
  exact (@equity_unchanged_by_chip_unit (1 # 100) [2000; 1500; 500]
           [5000; 3000] 2 Hc Hpos Hk).
Defined.

(** X8.  In exact arithmetic, an equity is proportional to the payouts:
    multiplying every payout by [c] multiplies the equity by [c]. *)
Theorem equity_proportional_to_payouts
    (c : Q) (stacks payouts : list Q) (k : nat) :
  positive stacks -> (k < length stacks)%nat ->
  exists v w : Q,
    calculatePlayerEquity stacks (map (Qmult c) payouts) (Z.of_nat k) = Some v
    /\ calculatePlayerEquity stacks payouts (Z.of_nat k) = Some w
    /\ v == c * w.
Proof.
  intros Hpos Hk.
  exists (equityV stacks (map (Qmult c) payouts) k), (equityV stacks payouts k).
  split; [apply equityV_some|]. split; [apply equityV_some|].
  apply equity_payout_scale with (n := length stacks); trivial; lia.
Qed.

Lemma equity_proportional_to_payouts_witness :
  positive [2000; 1500; 500] /\ (0 < 3)%nat /\
  exists v w : Q,
    calculatePlayerEquity [2000; 1500; 500] (map (Qmult 100) [50; 30; 20]) 0
    = Some v
    /\ calculatePlayerEquity [2000; 1500; 500] [50; 30; 20] 0 = Some w
    /\ v == 100 * w.
Proof.
  assert (Hpos : positive [2000; 1500; 500]) by repeat constructor.
  assert (Hk : (0 < length [2000; 1500; 500]%Q)%nat) by (simpl; lia).
  repeat (split; [assumption|]).
  exact (@equity_proportional_to_payouts 100 [2000; 1500; 500] [50; 30; 20] 0
           Hpos Hk).
Defined.

(** X9.  [calculatePlayerEquity] does not check [playerIndex].  With one
    prize and positive stacks, in exact arithmetic, an index outside the
    table (negative, or [stacks.length] or more) is given the whole prize. *)
Theorem index_outside_table_holds_the_prize
    (stacks : list Q) (prize : Q) (playerIndex : Z) :
  positive stacks -> stacks <> [] ->
  (playerIndex < 0 \/ Z.of_nat (length stacks) <= playerIndex)%Z ->
  exists v : Q,
    calculatePlayerEquity stacks [prize] playerIndex = Some v /\ v == prize.
Proof.
  intros Hpos Hs Hz.
  destruct (calculatePlayerEquity_returns stacks [prize] playerIndex) as [v Hv].
  exists v. split; [exact Hv|].
  pose proof (@equity_outside_table prize (length stacks) stacks playerIndex
                eq_refl) as Hout.
  rewrite Hv in Hout. apply Hout; trivial.
  destruct stacks; [congruence|simpl; lia].
Qed.

Lemma index_outside_table_holds_the_prize_witness :
  positive [1000; 2000] /\ [1000; 2000] <> [] /\
  (5 < 0 \/ Z.of_nat 2 <= 5)%Z /\
  exists v : Q,
    calculatePlayerEquity [1000; 2000] [100] 5 = Some v /\ v == 100.
Proof.
  assert (Hpos : positive [1000; 2000]) by repeat constructor.
  assert (Hs : [1000; 2000] <> []) by discriminate.
  assert (Hz : (5 < 0 \/ Z.of_nat (length [1000; 2000]%Q) <= 5)%Z)
    by (right; simpl; lia).
  repeat (split; [assumption|]).
  exact (@index_outside_table_holds_the_prize [1000; 2000] 100 5 Hpos Hs Hz).
Defined.

(** X10.  An empty table, on binary64 and in exact arithmetic:
    [calculateBubbleFactor] does not check its input and returns 1 for every
    list of payouts and every index, while [calculateICM] throws. *)
Theorem empty_table_bubble_factor :
  (forall (payouts : list float) (playerIndex : Z),
      calculateBubbleFactor [] payouts playerIndex = Some 1%float
      /\ calculateICM [] payouts playerIndex = Throws invalidInput)
  /\ (forall (payouts : list Q) (playerIndex : Z),
         calculateBubbleFactor [] payouts playerIndex = Some 1%Q
         /\ calculateICM [] payouts playerIndex = Throws invalidInput).
Proof.
  split; intros payouts playerIndex.
  - split; [reflexivity|].
    unfold calculateICM. cbn [length Nat.eqb]. now rewrite orb_true_r.
  - split; [reflexivity|].
    unfold calculateICM. cbn [length Nat.eqb]. now rewrite orb_true_r.
Qed.

End CalculatorProperties.

Section PushingRangeProperties.

Local Open Scope string_scope.
Local Open Scope list_scope.

(** X11.  At every instance of the numbers (binary64 with its NaN included)
    and for every input, the range [calculateOptimalPushingRange] returns
    starts with the tight range, is an initial part of the very wide range,
    has 37, 62, 92 or 130 hands and names no hand twice. *)
Theorem pushing_range_tiers {A : Type} `{Ordered A}
    (heroStack : A) (villainStacks : list A) (blinds antes : A)
    (position : string) (payouts : list A) :
  let range := calculateOptimalPushingRange heroStack villainStacks blinds
                                            antes position payouts in
  (exists more, range = getTightPushRange ++ more)
  /\ (exists rest, getVeryWidePushRange = range ++ rest)
  /\ In (length range) [37; 62; 92; 130]%nat
  /\ NoDup range.
Proof.
  cbv zeta.
  destruct (pushing_range_shape heroStack villainStacks blinds antes position
                                payouts) as [Hfirst [[rest Hrest] Hlen]].
  repeat split; eauto.
  pose proof widest_range_NoDup as N. rewrite Hrest in N.
  now apply NoDup_app_remove_r in N.
Qed.

Open Scope Q_scope.

(** X12.  The push/fold decision of the solver route reads the two cards in
    the order they are sent.  At every instance of the numbers, for every
    request the schema admits: with payouts, two cards of different ranks
    sent with the lower one first are folded, while a hand whose string is
    in the tight range is pushed (so ace-king suited is pushed and king-ace
    suited is folded), and without cards the answer is FOLD; without
    payouts the route fails. *)
Theorem card_order_decides_push {A : Type} `{Ordered A}
    (heroStack : A) (villainStacks : list A) (smallBlind bigBlind : A)
    (ante : option A) (position : string) (payouts : list A)
    (heroCards : option (Card * Card)) :
  pushFoldSchema heroStack villainStacks smallBlind bigBlind ante position
                 payouts heroCards = true ->
  (payouts = [] ->
   pushFoldRecommendation heroStack villainStacks smallBlind bigBlind ante
                          position payouts heroCards
   = Failed ("Push/fold calculation failed: " ++ invalidInput))
  /\ (payouts <> [] ->
      match heroCards with
      | None =>
        pushFoldRecommendation heroStack villainStacks smallBlind bigBlind ante
                               position payouts None
        = Sent FOLD
      | Some (heroCards0, heroCards1) =>
        (forall high low : nat,
            (high < low)%nat -> (low < 13)%nat ->
            rank heroCards0 = nth low validRanks "" ->
            rank heroCards1 = nth high validRanks "" ->
            pushFoldRecommendation heroStack villainStacks smallBlind bigBlind
                                   ante position payouts
                                   (Some (heroCards0, heroCards1))
            = Sent FOLD)
        /\ (In (handString heroCards0 heroCards1) getTightPushRange ->
            pushFoldRecommendation heroStack villainStacks smallBlind bigBlind
                                   ante position payouts
                                   (Some (heroCards0, heroCards1))
            = Sent PUSH)
      end).
Proof.
  intros Hschema. split.
  - intros ->. unfold pushFoldRecommendation. rewrite Hschema. reflexivity.
  - intros Hp.
    destruct (pushing_range_shape heroStack villainStacks bigBlind
                (numberOf ante) position payouts)
      as [[more Hfirst] [[rest Hrest] _]].
    cbv zeta in Hfirst, Hrest.
    assert (Hicm : exists r, calculateICM (heroStack :: villainStacks) payouts 0
                             = Returns r).
    { unfold calculateICM. destruct payouts as [|p payouts']; [congruence|].
      cbn [length Nat.eqb orb].
      destruct (calculatePlayerEquity_returns (heroStack :: villainStacks)
                  (p :: payouts') 0) as [e ->].
      eexists. reflexivity. }
    destruct Hicm as [r Hicm].
    destruct heroCards as [[c0 c1]|].
    + split.
      * intros high low Hlt Hlow Hr0 Hr1.
        unfold pushFoldRecommendation. rewrite Hschema, Hicm. cbn [negb].
        cbv zeta.
        destruct (@lower_card_first_unlisted high low
                    (String.eqb (suit c0) (suit c1)) Hlt Hlow) as [Hne Hout].
        unfold handString. rewrite Hr0, Hr1, Hne.
        rewrite Hrest, includes_app in Hout.
        apply orb_false_iff in Hout. destruct Hout as [Hout _].
        now rewrite Hout.
      * intros Hin. apply includes_In in Hin.
        unfold pushFoldRecommendation. rewrite Hschema, Hicm. cbn [negb].
        cbv zeta. rewrite Hfirst, includes_app, Hin. reflexivity.
    + unfold pushFoldRecommendation. rewrite Hschema, Hicm. reflexivity.
Qed.

Lemma card_order_decides_push_witness :
  pushFoldRecommendation 1500%Q [3000; 2000]%Q 50%Q 100%Q (Some 10%Q) "BTN"
    [50; 30; 20]%Q
    (Some ({| rank := "K"; suit := "s" |}, {| rank := "A"; suit := "s" |}))
  = Sent FOLD
  /\ pushFoldRecommendation 1500%Q [3000; 2000]%Q 50%Q 100%Q (Some 10%Q) "BTN"
       [50; 30; 20]%Q
       (Some ({| rank := "A"; suit := "s" |}, {| rank := "K"; suit := "s" |}))
     = Sent PUSH.
Proof.
  split.
  - refine (proj1 (proj2 (@card_order_decides_push Q _ _ 1500%Q [3000; 2000]%Q
                            50%Q 100%Q (Some 10%Q) "BTN" [50; 30; 20]%Q
                            (Some ({| rank := "K"; suit := "s" |},
                                   {| rank := "A"; suit := "s" |}))
                            eq_refl)
                         ltac:(discriminate))
                  0%nat 1%nat ltac:(lia) ltac:(lia) eq_refl eq_refl).
  - refine (proj2 (proj2 (@card_order_decides_push Q _ _ 1500%Q [3000; 2000]%Q
                            50%Q 100%Q (Some 10%Q) "BTN" [50; 30; 20]%Q
                            (Some ({| rank := "A"; suit := "s" |},
                                   {| rank := "K"; suit := "s" |}))
                            eq_refl)
                         ltac:(discriminate)) _).
    simpl. tauto.
Defined.

(** X13.  In exact arithmetic and with positive blinds, a deeper stack never
    pushes fewer hands: the range of the larger [heroStack] is the range of
    the smaller one with hands added at its end, whatever the other
    arguments are. *)
Theorem deeper_stack_pushes_wider
    (heroStack heroStack' blinds antes antes' : Q)
    (villainStacks villainStacks' payouts payouts' : list Q)
    (position position' : string) :
  0 < blinds -> heroStack <= heroStack' ->
  exists more : list string,
    calculateOptimalPushingRange heroStack' villainStacks' blinds antes'
                                 position' payouts'
    = calculateOptimalPushingRange heroStack villainStacks blinds antes
                                   position payouts ++ more.
Proof.
  intros Hb Hle. unfold calculateOptimalPushingRange. exact_ops. cbv zeta.
  assert (Hx : heroStack / blinds <= heroStack' / blinds).
  { unfold Qdiv. apply Qmult_le_compat_r; trivial.
    apply Qlt_le_weak, Qinv_lt_0_compat, Hb. }
  set (x := heroStack / blinds) in *. set (x' := heroStack' / blinds) in *.
  assert (H8 : inject_Z 8 == 8) by reflexivity.
  assert (H12 : inject_Z 12 == 12) by reflexivity.
  assert (H18 : inject_Z 18 == 18) by reflexivity.
  destruct (numLe_whole x 8), (numLe_whole x 12), (numLe_whole x 18),
           (numLe_whole x' 8), (numLe_whole x' 12), (numLe_whole x' 18);
    try (exfalso; lra);
    unfold getVeryWidePushRange, getWidePushRange, getMediumPushRange;
    rewrite <- ?app_assoc;
    try (exists []; now rewrite app_nil_r);
    eexists; reflexivity.
Qed.

Lemma deeper_stack_pushes_wider_witness :
  0 < 100 /\ 900 <= 1500 /\
  exists more : list string,
    calculateOptimalPushingRange 1500 [3000; 2000] 100 10 "BTN" [50; 30; 20]
    = calculateOptimalPushingRange 900 [1000] 100 0 "SB" [60; 40] ++ more.
Proof.
  assert (Hb : 0 < 100) by reflexivity.
  assert (Hle : 900 <= 1500) by discriminate.
  split; [exact Hb|]. split; [exact Hle|].
  exact (@deeper_stack_pushes_wider 900 1500 100 0 10 [1000] [3000; 2000]
           [60; 40] [50; 30; 20] "SB" "BTN" Hb Hle).
Defined.

End PushingRangeProperties.

Section RouteProperties.

Local Open Scope string_scope.
Local Open Scope list_scope.
Open Scope Q_scope.



(** X15.  In exact arithmetic, the confidence of the push/fold route lies
    between 0.5 and 0.95 and does not go down when the gap between the two
    expected values widens, the fold equity being the same. *)
Theorem confidence_grows_with_ev_gap
    (pushEV foldEV pushEV' foldEV' foldEquity : Q) :
  Qabs (pushEV - foldEV) <= Qabs (pushEV' - foldEV') ->
  1 # 2 <= calculateConfidence pushEV foldEV foldEquity
  /\ calculateConfidence pushEV foldEV foldEquity
     <= calculateConfidence pushEV' foldEV' foldEquity
  /\ calculateConfidence pushEV' foldEV' foldEquity <= 95 # 100.
Proof.
  intros Hgap. unfold calculateConfidence. cbv zeta. exact_ops. exact_order.
  set (adj := if negb (Qle_bool foldEquity (inject_Z 8 / inject_Z 10))
              then inject_Z 1 / inject_Z 10
              else if negb (Qle_bool (1 # 2) foldEquity)
                   then inject_Z (-1) / inject_Z 10 else 0).
  split; [apply Q.le_max_l|]. split.
  - apply Q.max_le_compat_l, Q.min_le_compat_l, Qplus_le_compat;
      [|apply Qle_refl].
    apply Q.min_le_compat_r, Qmult_le_compat_r; [exact Hgap|discriminate].
  - apply Q.max_lub; [discriminate|].
    apply Qle_trans with (inject_Z 95 / inject_Z 100);
      [apply Q.le_min_l|discriminate].
Qed.

Lemma confidence_grows_with_ev_gap_witness :
  Qabs ((1 # 100) - 0) <= Qabs ((5 # 100) - 0) /\
  1 # 2 <= calculateConfidence (1 # 100) 0 (7 # 10)
  /\ calculateConfidence (1 # 100) 0 (7 # 10)
     <= calculateConfidence (5 # 100) 0 (7 # 10)
  /\ calculateConfidence (5 # 100) 0 (7 # 10) <= 95 # 100.
Proof.
  assert (Hgap : Qabs ((1 # 100) - 0) <= Qabs ((5 # 100) - 0)) by discriminate.
  split; [exact Hgap|].
  exact (@confidence_grows_with_ev_gap (1 # 100) 0 (5 # 100) 0 (7 # 10) Hgap).
Defined.

(** X16.  In exact arithmetic, [getBubbleRecommendations] never gives the
    advice for a high bubble factor together with the advice for a low one,
    and it gives no advice at all exactly when the bubble factor is at least
    1.3 and below 2 and the table is not one player from the money. *)
Theorem recommendations_never_conflict
    (bubbleFactor totalPlayers paidPositions : Q) :
  let advice := getBubbleRecommendations bubbleFactor totalPlayers
                                         paidPositions in
  ~ (In "Avoid marginal spots" advice /\ In "Can play closer to chip EV" advice)
  /\ (advice = [] <->
      13 # 10 <= bubbleFactor /\ bubbleFactor < 2
      /\ ~ totalPlayers == paidPositions + 1).
Proof.
  cbv zeta. unfold getBubbleRecommendations. exact_ops. exact_order.
  assert (E2 : inject_Z 2 / inject_Z 1 == 2) by reflexivity.
  assert (E13 : inject_Z 13 / inject_Z 10 == 13 # 10) by reflexivity.
  destruct (Qle_bool_reflect (inject_Z 2 / inject_Z 1) bubbleFactor) as [H2|H2];
    destruct (Qeq_bool_reflect totalPlayers (paidPositions + 1)) as [Hb|Hb];
    destruct (Qle_bool_reflect (inject_Z 13 / inject_Z 10) bubbleFactor)
      as [H13|H13];
    cbn [negb app In];
    (split;
     [ intros [Ha Hc];
       repeat (destruct Ha as [Ha|Ha]; try discriminate Ha);
       repeat (destruct Hc as [Hc|Hc]; try discriminate Hc);
       try contradiction; lra
     | split;
       [ intros Hnil; try discriminate Hnil; repeat split; lra
       | intros [Ha [Hc Hd]]; try reflexivity; exfalso;
         first [ apply Hd; exact Hb | lra ] ] ]).
Qed.

(** X17.  The bubble-factor route, in exact arithmetic, for every request
    the schema admits whose index is given and is that of a player: the
    route answers; its risk premium is its chip equity less its ICM equity;
    it says that this is the bubble exactly when there is one player more
    than payouts; with a positive ICM equity it advises to avoid marginal
    spots exactly when the risk premium is at least the ICM equity; and
    with an ICM equity that is not positive it reports the bubble factor 1
    and a low pressure. *)
Theorem bubble_route_consistent (stacks payouts : list Q) (k : nat) :
  bubbleFactorSchema stacks payouts (Some (Z.of_nat k)) = true ->
  (k < length stacks)%nat ->
  exists a : @BubbleAnalysis Q,
    bubbleFactorAnalysis stacks payouts (Some (Z.of_nat k)) = Sent a
    /\ analysisRiskPremium a == chipEquity a - icmEquity a
    /\ (In "This is the bubble - extreme caution required" (recommendations a)
        <-> length stacks = S (length payouts))
    /\ (0 < icmEquity a ->
        (In "Avoid marginal spots" (recommendations a)
         <-> icmEquity a <= analysisRiskPremium a))
    /\ (icmEquity a <= 0 ->
        bubbleFactor a = 1
        /\ interpretation a = "LOW ICM pressure - close to chip EV"
        /\ In "Can play closer to chip EV" (recommendations a)).
Proof.
  intros Hschema Hk.
  destruct (bubbleFactorSchema_exact _ _ _ Hschema) as [Hpos [Hp _]].
  assert (Hs : stacks <> []) by (destruct stacks; [simpl in Hk; lia|discriminate]).
  unfold bubbleFactorAnalysis. rewrite Hschema. cbn [negb indexOf indexOrDefault].
  unfold calculateBubbleFactor.
  rewrite calculateICM_exact, equityV_some, get_of_nat by assumption.
  eexists. split; [reflexivity|].
  cbn [bubbleFactor icmEquity chipEquity analysisRiskPremium interpretation
       recommendations icmV equity riskPremium].
  exact_ops.
  set (e := equityV stacks payouts k).
  set (chip := nth k stacks 0 / sum stacks * sum payouts).
  split; [reflexivity|]. split; [|split].
  - rewrite advice_bubble. apply table_on_the_bubble.
  - intros He. rewrite advice_high.
    destruct (Qle_bool_reflect e 0) as [L|L]; [exfalso; lra|]. simpl.
    split; intros H2.
    + assert (0 <= (chip / e - 2) * e) by (apply Qmult_le_0_compat; lra).
      assert ((chip / e - 2) * e == chip - 2 * e) by (field; lra). lra.
    + assert (0 <= (chip - 2 * e) / e) by (apply Qdiv_nonneg; lra).
      assert ((chip - 2 * e) / e == chip / e - 2) by (field; lra). lra.
  - intros He.
    destruct (Qle_bool_reflect e 0) as [L|L]; [|contradiction]. simpl.
    split; [reflexivity|]. split.
    + apply interpretation_low. reflexivity.
    + apply advice_low. reflexivity.
Qed.

Lemma bubble_route_consistent_witness :
  (0 < 3)%nat /\
  exists a : @BubbleAnalysis Q,
    bubbleFactorAnalysis [4000; 500; 500] [6000; 4000] (Some 0%Z) = Sent a
    /\ analysisRiskPremium a == chipEquity a - icmEquity a
    /\ (In "This is the bubble - extreme caution required" (recommendations a)
        <-> 3%nat = 3%nat)
    /\ (0 < icmEquity a ->
        (In "Avoid marginal spots" (recommendations a)
         <-> icmEquity a <= analysisRiskPremium a))
    /\ (icmEquity a <= 0 ->
        bubbleFactor a = 1
        /\ interpretation a = "LOW ICM pressure - close to chip EV"
        /\ In "Can play closer to chip EV" (recommendations a)).
Proof.
  assert (Hk : (0 < length [4000; 500; 500]%Q)%nat) by (simpl; lia).
  split; [exact Hk|].
  exact (@bubble_route_consistent [4000; 500; 500] [6000; 4000] 0 eq_refl Hk).
Defined.

(** X18.  The EVEN row of the ICM pressure chart, in exact arithmetic: for
    every number of players and every list of payouts, each player's bubble
    factor is 1. *)
Theorem even_chart_row_is_flat (currentPlayers : nat) (payouts : list Q) :
  let factors := pressureFactors currentPlayers payouts "EVEN" in
  length factors = currentPlayers
  /\ Forall (fun factor => exists b : Q, factor = Some b /\ b == 1) factors.
Proof.
  cbv zeta. unfold pressureFactors, generateStackDistribution.
  cbn [String.eqb Ascii.eqb Bool.eqb]. cbv zeta.
  rewrite repeat_length, length_map, length_seq. split; [reflexivity|].
  apply Forall_forall. intros f Hf. apply in_map_iff in Hf.
  destruct Hf as [i [<- Hi]]. apply in_seq in Hi.
  apply bubble_factor_even.
  - exact_order. reflexivity.
  - lia.
  - unfold slice0. rewrite length_firstn. lia.
Qed.

(** X19.  The stack distributions of the chart, in exact arithmetic: EVEN,
    BOTTOM_HEAVY and POLARIZED give positive stacks to any number of
    players; TOP_HEAVY gives seat [i] the stack [200 - 20 * i], so its
    stacks are all positive exactly when there are at most 10 players. *)
Theorem top_heavy_runs_out_of_chips (players : nat) :
  positive (generateStackDistribution players "EVEN")
  /\ positive (generateStackDistribution players "BOTTOM_HEAVY")
  /\ positive (generateStackDistribution players "POLARIZED")
  /\ (positive (generateStackDistribution players "TOP_HEAVY")
      <-> (players <= 10)%nat).
Proof.
  unfold generateStackDistribution.
  cbn [String.eqb Ascii.eqb Bool.eqb]. cbv zeta. exact_ops. exact_order.
  assert (Hnat : forall i : nat, 0 <= inject_Z (Z.of_nat i)).
  { intros i. change 0 with (inject_Z 0). rewrite <- Zle_Qle. lia. }
  split; [|split; [|split]].
  - apply positive_repeat. reflexivity.
  - apply Forall_forall. intros x Hx. apply in_map_iff in Hx.
    destruct Hx as [i [<- _]]. pose proof (Hnat i).
    assert (E : inject_Z 100 / inject_Z 1
                * ((1 # 2) + inject_Z (Z.of_nat i) * (inject_Z 2 / inject_Z 10))
                == 50 + 20 * inject_Z (Z.of_nat i)) by field.
    rewrite E. lra.
  - apply Forall_forall. intros x Hx. apply in_map_iff in Hx.
    destruct Hx as [i [<- _]]. destruct (Nat.even i); reflexivity.
  - assert (E : forall i : nat,
               inject_Z 100 / inject_Z 1
               * (inject_Z 2 / inject_Z 1
                  - inject_Z (Z.of_nat i) * (inject_Z 2 / inject_Z 10))
               == 200 - 20 * inject_Z (Z.of_nat i)) by (intros; field).
    split.
    + intros Hpos. destruct (Nat.le_gt_cases players 10) as [|Hgt]; trivial.
      exfalso. unfold positive in Hpos. rewrite Forall_forall in Hpos.
      assert (Hin : In (inject_Z 100 / inject_Z 1
                        * (inject_Z 2 / inject_Z 1
                           - inject_Z (Z.of_nat 10) * (inject_Z 2 / inject_Z 10)))
                       (map (fun i : nat =>
                               inject_Z 100 / inject_Z 1
                               * (inject_Z 2 / inject_Z 1
                                  - inject_Z (Z.of_nat i)
                                    * (inject_Z 2 / inject_Z 10)))
                            (seq 0 players))).
      { apply in_map_iff. exists 10%nat. split; [reflexivity|].
        apply in_seq. lia. }
      apply Hpos in Hin. revert Hin. vm_compute. discriminate.
    + intros Hle. apply Forall_forall. intros x Hx. apply in_map_iff in Hx.
      destruct Hx as [i [<- Hi]]. apply in_seq in Hi. rewrite E.
      assert (inject_Z (Z.of_nat i) <= 9).
      { change 9 with (inject_Z 9). rewrite <- Zle_Qle. lia. }
      lra.
Qed.

End RouteProperties.
